(** * A kinematic model-predictive controller: horizon problem, solve cycle,
      trajectory fit

    Shallow embedding of [src/MPC.h], [src/MPC.cpp] and the control cycle of
    [src/main.cpp].

    Numbers.  Every [double] (and every [CppAD::AD<double>]) of the source is
    a real number here: [+], [-], [*], [/], [cos], [sin], [atan] and [pow]
    with a natural exponent are the operations of [R], and a decimal literal
    such as [0.1] is the rational it denotes.  Rounding, infinities and NaN
    are outside the model.

    Indices.  [size_t], [unsigned int] and Eigen's [Index] values that index a
    vector are natural numbers; [index_constants_fit_size_t] checks that the
    layout constants stay far below [2^64], so no index computation of the
    source wraps around.  The [int order] of [polyfit] is compared with a
    signed size and is an integer.

    Aborts.  An element access outside a vector (an assertion failure of
    CppAD and Eigen, undefined behaviour of [std::vector]) and a failed
    [assert] end the computation with a [fault]; nothing after them runs. *)

From Stdlib Require Import Reals Lra Lia ZArith List String.
From stdpp Require Import base tactics option list.

(** ** Aborting computations *)

Inductive fault : Type :=
  | index_out_of_range
  | assert_sizes_equal      (* assert(xvals.size() == yvals.size()) *)
  | assert_order_in_range.  (* assert(order >= 1 && order <= xvals.size() - 1) *)

Inductive outcome (A : Type) : Type :=
  | Ok (a : A)
  | Abort (f : fault).

Arguments Ok {A} a.
Arguments Abort {A} f.

#[global] Instance outcome_ret : MRet outcome := @Ok.

#[global] Instance outcome_bind : MBind outcome :=
  λ A B k m, match m with Ok a => k a | Abort f => Abort f end.

Definition is_Ok {A} (m : outcome A) : Prop := ∃ a, m = Ok a.

(** ** Vectors of doubles *)

Abbreviation Dvector := (list R) (only parsing).

(** [v[i]] as an rvalue. *)
Definition vget (v : Dvector) (i : nat) : outcome R :=
  match v !! i with
  | Some x => Ok x
  | None => Abort index_out_of_range
  end.

(** [v[i] = x]. *)
Definition vset (v : Dvector) (i : nat) (x : R) : outcome Dvector :=
  if decide (i < length v) then Ok (<[i:=x]> v) else Abort index_out_of_range.

(** [v[i] += x]. *)
Definition vadd (v : Dvector) (i : nat) (x : R) : outcome Dvector :=
  old ← vget v i; vset v i (old + x).

(** [for (t = lo; t < lo + count; ++t) body], threading the state the body
    updates; a loop [for (t = lo; t < hi; ++t)] runs [hi - lo] times. *)
Fixpoint for_loop {St : Type} (t count : nat) (body : nat → St → outcome St)
    (s : St) : outcome St :=
  match count with
  | O => Ok s
  | S c => s' ← body t s; for_loop (S t) c body s'
  end.

(** ** MPC.h / MPC.cpp: constants and the layout of the decision vector *)

Definition Lf : R := 2.67.

Definition N : nat := 8.
Definition dt : R := 0.1.
Definition ref_v : R := 50.

Definition x_start : nat := 0.
Definition y_start : nat := x_start + N.
Definition psi_start : nat := y_start + N.
Definition v_start : nat := psi_start + N.
Definition cte_start : nat := v_start + N.
Definition epsi_start : nat := cte_start + N.
Definition delta_start : nat := epsi_start + N.
Definition a_start : nat := delta_start + N - 1.

(** [n_vars] and [n_constraints] are locals of [MPC::Solve]. *)
Definition n_vars : nat := N * 6 + (N - 1) * 2.
Definition n_constraints : nat := N * 6.

(** ** FG_eval *)

Record FG_eval : Type := mkFG_eval {
  coeffs : Dvector;
  weights : Dvector
}.

(** The constructor stores the coefficients; [weights] starts empty. *)
Definition FG_eval_new (c : Dvector) : FG_eval :=
  {| coeffs := c; weights := [] |}.

Definition FG_eval_pass_args (o : FG_eval) (args : Dvector) : FG_eval :=
  {| coeffs := coeffs o; weights := args |}.

(** Body of the first cost loop (state errors and speed). *)
Definition cost_state (o : FG_eval) (vars : Dvector) (t : nat)
    (fg : Dvector) : outcome Dvector :=
  w0 ← vget (weights o) 0;
  cte ← vget vars (cte_start + t);
  fg ← vadd fg 0 (w0 * cte ^ 2);
  w1 ← vget (weights o) 1;
  epsi ← vget vars (epsi_start + t);
  fg ← vadd fg 0 (w1 * epsi ^ 2);
  w2 ← vget (weights o) 2;
  v ← vget vars (v_start + t);
  vadd fg 0 (w2 * (v - ref_v) ^ 2).

(** Body of the second cost loop (use of the actuators). *)
Definition cost_actuation (o : FG_eval) (vars : Dvector) (t : nat)
    (fg : Dvector) : outcome Dvector :=
  w3 ← vget (weights o) 3;
  delta ← vget vars (delta_start + t);
  fg ← vadd fg 0 (w3 * delta ^ 2);
  w4 ← vget (weights o) 4;
  a ← vget vars (a_start + t);
  vadd fg 0 (w4 * a ^ 2).

(** Body of the third cost loop (gap between sequential actuations). *)
Definition cost_gap (o : FG_eval) (vars : Dvector) (t : nat)
    (fg : Dvector) : outcome Dvector :=
  w5 ← vget (weights o) 5;
  delta1 ← vget vars (delta_start + t + 1);
  delta0 ← vget vars (delta_start + t);
  fg ← vadd fg 0 (w5 * (delta1 - delta0) ^ 2);
  w6 ← vget (weights o) 6;
  a1 ← vget vars (a_start + t + 1);
  a0 ← vget vars (a_start + t);
  vadd fg 0 (w6 * (a1 - a0) ^ 2).

(** Body of the constraint loop, for step [t]. *)
Definition model_constraints (o : FG_eval) (vars : Dvector) (t : nat)
    (fg : Dvector) : outcome Dvector :=
  x1 ← vget vars (x_start + t);
  y1 ← vget vars (y_start + t);
  psi1 ← vget vars (psi_start + t);
  v1 ← vget vars (v_start + t);
  cte1 ← vget vars (cte_start + t);
  epsi1 ← vget vars (epsi_start + t);
  x0 ← vget vars (x_start + t - 1);
  y0 ← vget vars (y_start + t - 1);
  psi0 ← vget vars (psi_start + t - 1);
  v0 ← vget vars (v_start + t - 1);
  cte0 ← vget vars (cte_start + t - 1);
  epsi0 ← vget vars (epsi_start + t - 1);
  delta0 ← vget vars (delta_start + t - 1);
  a0 ← vget vars (a_start + t - 1);
  c0 ← vget (coeffs o) 0;
  c1 ← vget (coeffs o) 1;
  c2 ← vget (coeffs o) 2;
  c3 ← vget (coeffs o) 3;
  let f0 := (c0 + c1 * x0 + c2 * x0 * x0 + c3 * x0 * x0 * x0)%R in
  c1 ← vget (coeffs o) 1;
  c2 ← vget (coeffs o) 2;
  c3 ← vget (coeffs o) 3;
  let psides0 := atan (1 * c1 + 2 * c2 * x0 + 3 * c3 * x0 * x0) in
  fg ← vset fg (1 + x_start + t) (x1 - (x0 + v0 * cos psi0 * dt));
  fg ← vset fg (1 + y_start + t) (y1 - (y0 + v0 * sin psi0 * dt));
  fg ← vset fg (1 + psi_start + t) (psi1 - (psi0 + v0 * delta0 / Lf * dt));
  fg ← vset fg (1 + v_start + t) (v1 - (v0 + a0 * dt));
  fg ← vset fg (1 + cte_start + t)
         (cte1 - ((f0 - y0) + (v0 * sin epsi0 * dt)));
  vset fg (1 + epsi_start + t)
       (epsi1 - ((psi0 - psides0) + v0 * delta0 / Lf * dt)).

(** [FG_eval::operator()]: [fg] comes back with the cost in entry 0 and the
    constraints after it. *)
Definition FG_eval_call (o : FG_eval) (fg vars : Dvector) : outcome Dvector :=
  fg ← vset fg 0 0;
  fg ← for_loop 0 (N - 0) (cost_state o vars) fg;
  fg ← for_loop 0 (N - 1 - 0) (cost_actuation o vars) fg;
  fg ← for_loop 0 (N - 2 - 0) (cost_gap o vars) fg;
  x ← vget vars x_start;
  fg ← vset fg (1 + x_start) x;
  y ← vget vars y_start;
  fg ← vset fg (1 + y_start) y;
  psi ← vget vars psi_start;
  fg ← vset fg (1 + psi_start) psi;
  v ← vget vars v_start;
  fg ← vset fg (1 + v_start) v;
  cte ← vget vars cte_start;
  fg ← vset fg (1 + cte_start) cte;
  epsi ← vget vars epsi_start;
  fg ← vset fg (1 + epsi_start) epsi;
  for_loop 1 (N - 1) (model_constraints o vars) fg.

(** ** The external solvers *)

(** [CppAD::ipopt]: what [MPC::Solve] hands to [CppAD::ipopt::solve] and what
    it reads back from the [solve_result].  The library is not part of the
    repository; [status_type] lists the statuses of CppAD's [solve_result],
    of which the source names only [success]. *)
Module ipopt.

Inductive status_type : Type :=
  | not_defined
  | success
  | maxiter_exceeded
  | stop_at_tiny_step
  | stop_at_acceptable_point
  | local_infeasibility
  | user_requested_stop
  | feasible_point_found
  | diverging_iterates
  | restoration_failure
  | error_in_step_computation
  | invalid_number_detected
  | too_few_degrees_of_freedom
  | internal_error
  | unknown.

#[global] Instance status_type_eq_dec : EqDecision status_type.
Proof. solve_decision. Defined.

Record solve_result : Type := mk_solve_result {
  status : status_type;
  x : Dvector
}.

(** The arguments of [solve], in the order of the call. *)
Record problem : Type := mk_problem {
  options : string;
  xi : Dvector;
  xl : Dvector;
  xu : Dvector;
  gl : Dvector;
  gu : Dvector;
  fg_eval : FG_eval
}.

End ipopt.

(** What the program takes from outside: the contents of memory it has
    allocated and not yet written, Eigen's Householder QR least-squares
    solver, and the Ipopt solve. *)
Class Platform : Type := {
  uninitialized : nat → R;
  householderQr_solve : list Dvector → Dvector → Dvector;
  ipopt_solve : ipopt.problem → ipopt.solve_result
}.

(** [Dvector v(n)]: [n] entries, none of them written yet. *)
Definition Dvector_new `{Platform} (n : nat) : Dvector :=
  map uninitialized (seq 0 n).

(** ** MPC *)

Record actuation_vars : Type := mk_actuation_vars {
  d : R;
  a : R;
  x_vals : list R;
  y_vals : list R
}.

(** The class [MPC]; [mpc_weights] is its member [weights]. *)
Record MPC : Type := mk_MPC {
  mpc_weights : Dvector
}.

Definition MPC_pass_args (mpc : MPC) (args : Dvector) : MPC :=
  {| mpc_weights := args |}.

(** The line feed that ends every option line. *)
Definition newline : string := String (Ascii.ascii_of_nat 10) EmptyString.

(** The option lines [MPC::Solve] appends, one after the other. *)
Definition solver_options : string :=
  ("Integer print_level  0" ++ newline
   ++ "Sparse  true        forward" ++ newline
   ++ "Sparse  true        reverse" ++ newline
   ++ "Numeric max_cpu_time          0.05" ++ newline)%string.

(** Both bounds of one entry: [lower[i] = lo; upper[i] = up]. *)
Definition set_bounds (lo up : R) (i : nat) (b : Dvector * Dvector)
    : outcome (Dvector * Dvector) :=
  lower ← vset b.1 i lo;
  upper ← vset b.2 i up;
  Ok (lower, upper).

(** [MPC::Solve] up to the call of the solver: the problem it is called on. *)
Definition Solve_problem `{Platform} (mpc : MPC) (state coeffs : Dvector)
    : outcome ipopt.problem :=
  x ← vget state 0;
  y ← vget state 1;
  psi ← vget state 2;
  v ← vget state 3;
  cte ← vget state 4;
  epsi ← vget state 5;
  let n_vars := N * 6 + (N - 1) * 2 in
  let n_constraints := N * 6 in
  vars ← for_loop 0 (n_vars - 0) (λ i vars, vset vars i 0) (Dvector_new n_vars);
  vars ← vset vars x_start x;
  vars ← vset vars y_start y;
  vars ← vset vars psi_start psi;
  vars ← vset vars v_start v;
  vars ← vset vars cte_start cte;
  vars ← vset vars epsi_start epsi;
  vars_bounds ← for_loop 0 (delta_start - 0) (set_bounds (-1.0e19) 1.0e19)
                  (Dvector_new n_vars, Dvector_new n_vars);
  vars_bounds ← for_loop delta_start (a_start - delta_start)
                  (set_bounds (-0.436332) 0.436332) vars_bounds;
  vars_bounds ← for_loop a_start (n_vars - a_start)
                  (set_bounds (-1.0) 1.0) vars_bounds;
  constraints_bounds ← for_loop 0 (n_constraints - 0) (set_bounds 0 0)
                  (Dvector_new n_constraints, Dvector_new n_constraints);
  let constraints_lowerbound := constraints_bounds.1 in
  let constraints_upperbound := constraints_bounds.2 in
  constraints_lowerbound ← vset constraints_lowerbound x_start x;
  constraints_lowerbound ← vset constraints_lowerbound y_start y;
  constraints_lowerbound ← vset constraints_lowerbound psi_start psi;
  constraints_lowerbound ← vset constraints_lowerbound v_start v;
  constraints_lowerbound ← vset constraints_lowerbound cte_start cte;
  constraints_lowerbound ← vset constraints_lowerbound epsi_start epsi;
  constraints_upperbound ← vset constraints_upperbound x_start x;
  constraints_upperbound ← vset constraints_upperbound y_start y;
  constraints_upperbound ← vset constraints_upperbound psi_start psi;
  constraints_upperbound ← vset constraints_upperbound v_start v;
  constraints_upperbound ← vset constraints_upperbound cte_start cte;
  constraints_upperbound ← vset constraints_upperbound epsi_start epsi;
  let fg_eval := FG_eval_pass_args (FG_eval_new coeffs) (mpc_weights mpc) in
  Ok {| ipopt.options := solver_options;
        ipopt.xi := vars;
        ipopt.xl := vars_bounds.1;
        ipopt.xu := vars_bounds.2;
        ipopt.gl := constraints_lowerbound;
        ipopt.gu := constraints_upperbound;
        ipopt.fg_eval := fg_eval |}.

(** [MPC::Solve] after the call of the solver, [ok] being [true] before it. *)
Definition Solve_actuations (ok : bool) (solution : ipopt.solve_result)
    : outcome actuation_vars :=
  let ok := ok && bool_decide (ipopt.status solution = ipopt.success) in
  d ← vget (ipopt.x solution) delta_start;
  a ← vget (ipopt.x solution) a_start;
  vals ← for_loop 1 (N - 1) (λ t (vals : list R * list R),
            xt ← vget (ipopt.x solution) (x_start + t);
            yt ← vget (ipopt.x solution) (y_start + t);
            Ok (vals.1 ++ [xt], vals.2 ++ [yt])) ([], []);
  Ok {| d := d; a := a; x_vals := vals.1; y_vals := vals.2 |}.

Definition Solve `{Platform} (mpc : MPC) (state coeffs : Dvector)
    : outcome actuation_vars :=
  let ok := true in
  problem ← Solve_problem mpc state coeffs;
  let solution := ipopt_solve problem in
  Solve_actuations ok solution.

(** ** main.cpp *)

Definition deg2rad (x : R) : R := x * PI / 180.
Definition rad2deg (x : R) : R := x * 180 / PI.

(** [polyeval]: the loop index stays below [coeffs.size()], so the default
    of [nth] is never read. *)
Definition polyeval (coeffs : Dvector) (x : R) : R :=
  fold_left (λ result i, result + nth i coeffs 0 * x ^ i)%R
            (seq 0 (length coeffs)) 0%R.

(** [assert(b)]. *)
Definition assert (b : bool) (f : fault) : outcome unit :=
  if b then Ok () else Abort f.

(** An [Eigen::MatrixXd], as the list of its rows. *)
Abbreviation Matrix := (list (list R)) (only parsing).

(** [Eigen::MatrixXd A(rows, cols)]: no entry written yet. *)
Definition Matrix_new `{Platform} (rows cols : nat) : Matrix :=
  replicate rows (Dvector_new cols).

(** [A(i, j)] as an rvalue. *)
Definition mget (A : Matrix) (i j : nat) : outcome R :=
  match A !! i with
  | Some row => vget row j
  | None => Abort index_out_of_range
  end.

(** [A(i, j) = x]. *)
Definition mset (A : Matrix) (i j : nat) (x : R) : outcome Matrix :=
  match A !! i with
  | Some row => row' ← vset row j x; Ok (<[i:=row']> A)
  | None => Abort index_out_of_range
  end.

Definition polyfit `{Platform} (xvals yvals : Dvector) (order : Z)
    : outcome Dvector :=
  _ ← assert (length xvals =? length yvals) assert_sizes_equal;
  _ ← assert ((order >=? 1)%Z && (order <=? Z.of_nat (length xvals) - 1)%Z)
             assert_order_in_range;
  let A := Matrix_new (length xvals) (Z.to_nat (order + 1)) in
  A ← for_loop 0 (length xvals - 0) (λ i A, mset A i 0 1) A;
  A ← for_loop 0 (length xvals - 0) (λ j A,
         for_loop 0 (Z.to_nat order - 0) (λ i A,
           prev ← mget A j i;
           xj ← vget xvals j;
           mset A j (i + 1) (prev * xj)) A) A;
  Ok (householderQr_solve A yvals).

(** [globalKinematic] updates [x], [y], [p] and [v] in place; here it returns
    their new values, in that order. *)
Definition globalKinematic (x y p v d a dt : R) : R * R * R * R :=
  let new_v := (v + a * dt)%R in
  let new_p := (p + (v / Lf) * (- d) * dt)%R in
  let new_x := (x + v * cos p * dt)%R in
  let new_y := (y + v * sin p * dt)%R in
  (new_x, new_y, new_p, new_v).

(** The weights [main] starts with. *)
Definition default_weights : Dvector :=
  [2; 10; 5; 3000; 100; 500; 100]%R.

(** The fields [onMessage] reads from the [telemetry] event: [ptsx], [ptsy],
    [x], [y], [psi], [speed], [steering_angle], [throttle]. *)
Record telemetry : Type := mk_telemetry {
  tm_ptsx : list R;
  tm_ptsy : list R;
  tm_x : R;
  tm_y : R;
  tm_psi : R;
  tm_speed : R;
  tm_steering_angle : R;
  tm_throttle : R
}.

(** The fields of the [steer] reply. *)
Record steer_message : Type := mk_steer_message {
  msg_steering_angle : R;
  msg_throttle : R;
  msg_mpc_x : list R;
  msg_mpc_y : list R;
  msg_next_x : list R;
  msg_next_y : list R
}.

(** One waypoint from map to vehicle coordinates: the body of the transform
    loop, for the vehicle at [(px, py)] with heading [psi]. *)
Definition to_vehicle (px py psi wx wy : R) : R * R :=
  let x := (wx - px)%R in
  let y := (wy - py)%R in
  (x * cos (- psi) - y * sin (- psi), x * sin (- psi) + y * cos (- psi))%R.

(** The transform loop of [onMessage]. *)
Definition transform_waypoints `{Platform} (ptsx ptsy : list R)
    (px py psi : R) : outcome (Dvector * Dvector) :=
  for_loop 0 (length ptsx - 0) (λ i (pts : Dvector * Dvector),
      wx ← vget ptsx i;
      wy ← vget ptsy i;
      let p := to_vehicle px py psi wx wy in
      ptsx_transform ← vset pts.1 i p.1;
      ptsy_transform ← vset pts.2 i p.2;
      Ok (ptsx_transform, ptsy_transform))
    (Dvector_new (length ptsx), Dvector_new (length ptsy)).

(** [onMessage] on a telemetry event, from the latency compensation to the
    state vector: the arguments [(state_vector, coeffs)] of [mpc.Solve].
    [latency] is what [calc_latency(then)] returned. *)
Definition telemetry_state `{Platform} (j : telemetry) (latency : R)
    : outcome (Dvector * Dvector) :=
  let '(px, py, psi, v) :=
    globalKinematic (tm_x j) (tm_y j) (tm_psi j) (tm_speed j)
                    (tm_steering_angle j) (tm_throttle j) latency in
  pts ← transform_waypoints (tm_ptsx j) (tm_ptsy j) px py psi;
  coeffs ← polyfit pts.1 pts.2 3;
  let cte := polyeval coeffs 0 in
  c1 ← vget coeffs 1;
  let epsi := (- atan c1)%R in
  let state_vector := [0; 0; 0; v; cte; epsi]%R in
  Ok (state_vector, coeffs).

(** [onMessage] on a telemetry event: the reply it sends. *)
Definition onTelemetry `{Platform} (mpc : MPC) (j : telemetry) (latency : R)
    : outcome steer_message :=
  args ← telemetry_state j latency;
  let state_vector := args.1 in
  let coeffs := args.2 in
  vars ← Solve mpc state_vector coeffs;
  let steer_value := d vars in
  let throttle_value := a vars in
  let num_points := 25 in
  let unit := 2.5%R in
  let next_x_vals := map (λ i, INR i * unit)%R (seq 0 num_points) in
  let next_y_vals :=
    map (λ i, polyeval coeffs (INR i * unit))%R (seq 0 num_points) in
  Ok {| msg_steering_angle := -1 * (steer_value / deg2rad 25);
        msg_throttle := throttle_value;
        msg_mpc_x := x_vals vars;
        msg_mpc_y := y_vals vars;
        msg_next_x := next_x_vals;
        msg_next_y := next_y_vals |}.

(** ** main.cpp: messages and start-up *)

(** A [std::string], as the list of its characters. *)
Abbreviation std_string := (list Ascii.ascii) (only parsing).

(** A string literal of the source. *)
Definition str (s : string) : std_string := list_ascii_of_string s.

(** Does [s] begin with [pat]? *)
Fixpoint starts_with (pat s : std_string) : bool :=
  match pat, s with
  | [], _ => true
  | _ :: _, [] => false
  | p :: pat', c :: s' => Ascii.eqb p c && starts_with pat' s'
  end.

(** [s.find(pat)]: the first position where [pat] occurs in [s]; [None] is
    [npos].  [pos] is the position of the head of [s]. *)
Fixpoint find_from (pat s : std_string) (pos : nat) : option nat :=
  if starts_with pat s then Some pos
  else match s with
       | [] => None
       | _ :: s' => find_from pat s' (S pos)
       end.

Definition find (pat s : std_string) : option nat := find_from pat s 0.

(** [s.find_first_of(set)]: the first position of [s] that holds one of the
    characters of [set]. *)
Fixpoint find_first_of_from (set s : std_string) (pos : nat) : option nat :=
  match s with
  | [] => None
  | c :: s' =>
      if existsb (Ascii.eqb c) set then Some pos
      else find_first_of_from set s' (S pos)
  end.

Definition find_first_of (set s : std_string) : option nat :=
  find_first_of_from set s 0.

(** [s.rfind(pat)]: the last position where [pat] occurs in [s]. *)
Fixpoint rfind_from (pat s : std_string) (pos : nat) : option nat :=
  match s with
  | [] => if starts_with pat [] then Some pos else None
  | _ :: s' =>
      match rfind_from pat s' (S pos) with
      | Some i => Some i
      | None => if starts_with pat s then Some pos else None
      end
  end.

Definition rfind (pat s : std_string) : option nat := rfind_from pat s 0.

(** [a - b + c] on [size_t]: the result modulo [2^64]. *)
Definition size_t_sub_add (a b c : nat) : Z :=
  ((Z.of_nat a - Z.of_nat b + Z.of_nat c) mod 2 ^ 64)%Z.

(** [s.substr(pos, count)]: the characters from [pos], at most [count] of
    them and no more than [s] has; [std::out_of_range] when [pos] is beyond
    the end. *)
Definition substr (s : std_string) (pos : nat) (count : Z)
    : outcome std_string :=
  if decide (pos ≤ length s)
  then Ok (take (Z.to_nat (Z.min count (Z.of_nat (length s - pos))))
                (drop pos s))
  else Abort index_out_of_range.

Definition hasData (s : std_string) : outcome std_string :=
  let found_null := find (str "null") s in
  let b1 := find_first_of (str "[") s in
  let b2 := rfind (str "}]") s in
  match found_null, b1, b2 with
  | Some _, _, _ => Ok []
  | None, Some b1, Some b2 => substr s b1 (size_t_sub_add b2 b1 2)
  | None, _, _ => Ok []
  end.

(** What [onMessage] does with a message before any JSON is parsed:
    nothing, the reply for manual driving, or handing [s] to [json::parse]. *)
Inductive message_route : Type :=
  | route_ignore
  | route_manual (msg : std_string)
  | route_parse (s : std_string).

(** The character [34], the double quote. *)
Definition dquote : Ascii.ascii := Ascii.ascii_of_nat 34.

(** The text sent for manual driving. *)
Definition manual_message : std_string :=
  str "42[" ++ [dquote] ++ str "manual" ++ [dquote] ++ str ",{}]".

(** [s[i] == c], for a position [i] of [s]. *)
Definition char_is (s : std_string) (i : nat) (c : Ascii.ascii) : bool :=
  match s !! i with
  | Some c' => Ascii.eqb c' c
  | None => false
  end.

(** [onMessage] down to the call of [json::parse]; [sdata] is the message
    text, and the characters 52 and 50 are the digits 4 and 2. *)
Definition onMessage_route (sdata : std_string) : outcome message_route :=
  if (2 <? length sdata) && char_is sdata 0 (Ascii.ascii_of_nat 52)
     && char_is sdata 1 (Ascii.ascii_of_nat 50)
  then
    s ← hasData sdata;
    match s with
    | _ :: _ => Ok (route_parse s)
    | [] => Ok (route_manual manual_message)
    end
  else Ok route_ignore.

(** The weights [main] passes to the controller: the defaults, overridden by
    the command-line arguments [argv[1]], [argv[2]], ...  [atof] is the
    conversion of the C library. *)
Definition main_weights (atof : std_string → R) (argv : list std_string)
    : outcome Dvector :=
  let argc := length argv in
  let weights := default_weights in
  if 1 <? argc
  then for_loop 1 (argc - 1) (λ i weights,
         match argv !! i with
         | Some arg => vset weights (i - 1) (atof arg)
         | None => Abort index_out_of_range
         end) weights
  else Ok weights.

(** * Vocabulary of the properties *)

(** Entries of the decision vector, by kind and step. *)
Definition x_at (vars : Dvector) (t : nat) : R := nth (x_start + t) vars 0%R.
Definition y_at (vars : Dvector) (t : nat) : R := nth (y_start + t) vars 0%R.
Definition psi_at (vars : Dvector) (t : nat) : R := nth (psi_start + t) vars 0%R.
Definition v_at (vars : Dvector) (t : nat) : R := nth (v_start + t) vars 0%R.
Definition cte_at (vars : Dvector) (t : nat) : R := nth (cte_start + t) vars 0%R.
Definition epsi_at (vars : Dvector) (t : nat) : R := nth (epsi_start + t) vars 0%R.
Definition delta_at (vars : Dvector) (t : nat) : R := nth (delta_start + t) vars 0%R.
Definition a_at (vars : Dvector) (t : nat) : R := nth (a_start + t) vars 0%R.

(** [w !! i], for the seven weights. *)
Definition weight (w : Dvector) (i : nat) : R := nth i w 0%R.

(** The sum of [f 0], ..., [f (n - 1)]. *)
Fixpoint Rsum (f : nat → R) (n : nat) : R :=
  match n with
  | O => 0%R
  | S k => (Rsum f k + f k)%R
  end.

Definition state_term (w vars : Dvector) (t : nat) : R :=
  (weight w 0 * cte_at vars t ^ 2 + weight w 1 * epsi_at vars t ^ 2
   + weight w 2 * (v_at vars t - ref_v) ^ 2)%R.

Definition actuation_term (w vars : Dvector) (t : nat) : R :=
  (weight w 3 * delta_at vars t ^ 2 + weight w 4 * a_at vars t ^ 2)%R.

Definition gap_term (w vars : Dvector) (t : nat) : R :=
  (weight w 5 * (delta_at vars (t + 1) - delta_at vars t) ^ 2
   + weight w 6 * (a_at vars (t + 1) - a_at vars t) ^ 2)%R.

(** The six state channels, in the order of their blocks. *)
Inductive channel : Type := Cx | Cy | Cpsi | Cv | Ccte | Cepsi.

Definition channel_start (k : channel) : nat :=
  match k with
  | Cx => x_start
  | Cy => y_start
  | Cpsi => psi_start
  | Cv => v_start
  | Ccte => cte_start
  | Cepsi => epsi_start
  end.

(** What the constraint loop stores for channel [k] at step [t], as the
    source writes it. *)
Definition residual (o : FG_eval) (vars : Dvector) (k : channel) (t : nat)
    : R :=
  let x0 := nth (x_start + t - 1) vars 0%R in
  let y0 := nth (y_start + t - 1) vars 0%R in
  let psi0 := nth (psi_start + t - 1) vars 0%R in
  let v0 := nth (v_start + t - 1) vars 0%R in
  let epsi0 := nth (epsi_start + t - 1) vars 0%R in
  let delta0 := nth (delta_start + t - 1) vars 0%R in
  let a0 := nth (a_start + t - 1) vars 0%R in
  let c0 := nth 0 (coeffs o) 0%R in
  let c1 := nth 1 (coeffs o) 0%R in
  let c2 := nth 2 (coeffs o) 0%R in
  let c3 := nth 3 (coeffs o) 0%R in
  match k with
  | Cx => x_at vars t - (x0 + v0 * cos psi0 * dt)
  | Cy => y_at vars t - (y0 + v0 * sin psi0 * dt)
  | Cpsi => psi_at vars t - (psi0 + v0 * delta0 / Lf * dt)
  | Cv => v_at vars t - (v0 + a0 * dt)
  | Ccte =>
      cte_at vars t
      - ((c0 + c1 * x0 + c2 * x0 * x0 + c3 * x0 * x0 * x0 - y0)
         + v0 * sin epsi0 * dt)
  | Cepsi =>
      epsi_at vars t
      - ((psi0 - atan (1 * c1 + 2 * c2 * x0 + 3 * c3 * x0 * x0))
         + v0 * delta0 / Lf * dt)
  end%R.

(** The six stores of one iteration of the constraint loop. *)
Definition store_step (o : FG_eval) (vars : Dvector) (t : nat)
    (fg : Dvector) : Dvector :=
  <[1 + epsi_start + t := residual o vars Cepsi t]>
    (<[1 + cte_start + t := residual o vars Ccte t]>
      (<[1 + v_start + t := residual o vars Cv t]>
        (<[1 + psi_start + t := residual o vars Cpsi t]>
          (<[1 + y_start + t := residual o vars Cy t]>
            (<[1 + x_start + t := residual o vars Cx t]> fg))))).

(** The cost as the three loops accumulate it. *)
Definition cost_accumulated (w vars : Dvector) : R :=
  (0 + Rsum (state_term w vars) N + Rsum (actuation_term w vars) (N - 1)
   + Rsum (gap_term w vars) (N - 2))%R.

(** The six stores that copy the initial state into the constraints. *)
Definition store_initial (vars fg : Dvector) : Dvector :=
  <[1 + epsi_start := nth epsi_start vars 0%R]>
    (<[1 + cte_start := nth cte_start vars 0%R]>
      (<[1 + v_start := nth v_start vars 0%R]>
        (<[1 + psi_start := nth psi_start vars 0%R]>
          (<[1 + y_start := nth y_start vars 0%R]>
            (<[1 + x_start := nth x_start vars 0%R]> fg))))).

(** The objective as the specification writes it: three sums of weighted
    squares, over [t = 0..N-1], [t = 0..N-2] and [t = 0..N-3]. *)
Definition objective_spec (w vars : Dvector) : R :=
  (sum_f_R0 (λ t, weight w 0 * cte_at vars t ^ 2
                  + weight w 1 * epsi_at vars t ^ 2
                  + weight w 2 * (v_at vars t - ref_v) ^ 2) (N - 1)
   + sum_f_R0 (λ t, weight w 3 * delta_at vars t ^ 2
                    + weight w 4 * a_at vars t ^ 2) (N - 2)
   + sum_f_R0 (λ t, weight w 5 * (delta_at vars (t + 1) - delta_at vars t) ^ 2
                    + weight w 6 * (a_at vars (t + 1) - a_at vars t) ^ 2)
              (N - 3))%R.

(** The position of a channel in the state vector [MPC::Solve] receives. *)
Definition channel_pos (k : channel) : nat :=
  match k with
  | Cx => 0
  | Cy => 1
  | Cpsi => 2
  | Cv => 3
  | Ccte => 4
  | Cepsi => 5
  end.

(** The six stores [v[x_start] = x; ...; v[epsi_start] = epsi]. *)
Definition pin_state (x y psi v cte epsi : R) (l : Dvector) : Dvector :=
  <[epsi_start := epsi]>
    (<[cte_start := cte]>
      (<[v_start := v]>
        (<[psi_start := psi]> (<[y_start := y]> (<[x_start := x]> l))))).

(** What [MPC::Solve] has built when it calls the solver. *)
Record problem_built (mpc : MPC) (state coeffs : Dvector)
    (p : ipopt.problem) : Prop := {
  built_options : ipopt.options p = solver_options;
  built_fg_eval :
    ipopt.fg_eval p = {| coeffs := coeffs; weights := mpc_weights mpc |};
  built_xi_length : length (ipopt.xi p) = n_vars;
  built_xl_length : length (ipopt.xl p) = n_vars;
  built_xu_length : length (ipopt.xu p) = n_vars;
  built_gl_length : length (ipopt.gl p) = n_constraints;
  built_gu_length : length (ipopt.gu p) = n_constraints;
  built_xi_state : ∀ k,
    ipopt.xi p !! channel_start k = Some (nth (channel_pos k) state 0%R);
  built_xi_zero : ∀ j,
    j < n_vars → (∀ k, j ≠ channel_start k) → ipopt.xi p !! j = Some 0%R;
  built_bounds_state : ∀ j,
    j < delta_start →
    ipopt.xl p !! j = Some (-1.0e19)%R ∧ ipopt.xu p !! j = Some 1.0e19%R;
  built_bounds_delta : ∀ j,
    delta_start ≤ j < a_start →
    ipopt.xl p !! j = Some (-0.436332)%R
    ∧ ipopt.xu p !! j = Some 0.436332%R;
  built_bounds_a : ∀ j,
    a_start ≤ j < n_vars →
    ipopt.xl p !! j = Some (-1.0)%R ∧ ipopt.xu p !! j = Some 1.0%R;
  built_g_state : ∀ k,
    ipopt.gl p !! channel_start k = Some (nth (channel_pos k) state 0%R)
    ∧ ipopt.gu p !! channel_start k = Some (nth (channel_pos k) state 0%R);
  built_g_zero : ∀ j,
    j < n_constraints → (∀ k, j ≠ channel_start k) →
    ipopt.gl p !! j = Some 0%R ∧ ipopt.gu p !! j = Some 0%R
}.

(** A platform to run the program on: fresh memory reads as zero, the
    least-squares solver answers with one zero coefficient per column, and
    Ipopt stops at once with the status [st], at its initial point. *)
Definition still_platform (st : ipopt.status_type) : Platform :=
  {| uninitialized := λ _, 0%R;
     householderQr_solve := λ A _, replicate (length (hd [] A)) 0%R;
     ipopt_solve := λ p, {| ipopt.status := st; ipopt.x := ipopt.xi p |} |}.

(** The bounds as the specification words them: the first six entries carry
    the state, every later entry is zero. *)
Definition first_six_entries_pin_state (state : Dvector)
    (p : ipopt.problem) : Prop :=
  length (ipopt.gl p) = 6 * N ∧ length (ipopt.gu p) = 6 * N
  ∧ (∀ i, i < 6 →
          ipopt.gl p !! i = state !! i ∧ ipopt.gu p !! i = state !! i)
  ∧ (∀ j, 6 ≤ j < 6 * N →
          ipopt.gl p !! j = Some 0%R ∧ ipopt.gu p !! j = Some 0%R).

(** The inverse the round trip names: rotate by [psi], then translate by
    [(px, py)]. *)
Definition to_world (px py psi lx ly : R) : R * R :=
  (lx * cos psi - ly * sin psi + px, lx * sin psi + ly * cos psi + py)%R.

Definition sample_telemetry : telemetry :=
  {| tm_ptsx := [10; 20; 30; 40; 50]%R;
     tm_ptsy := [1; 2; 4; 7; 11]%R;
     tm_x := 3; tm_y := 4; tm_psi := 1; tm_speed := 10;
     tm_steering_angle := 0; tm_throttle := 1 |}.

(** A second platform to run the program on: fresh memory reads as zero, the
    least-squares solver answers with four zero coefficients, and Ipopt
    reports success with every variable equal to [v]. *)
Definition fixed_platform (v : R) : Platform :=
  {| uninitialized := λ _, 0%R;
     householderQr_solve := λ _ _, [0; 0; 0; 0]%R;
     ipopt_solve := λ _, {| ipopt.status := ipopt.success;
                            ipopt.x := replicate n_vars v |} |}.

(** * Properties *)

(** ** Index arithmetic stays within [size_t] *)

(** Each layout constant, computed in 64-bit unsigned arithmetic as the
    source does, is the natural number defined above. *)
Lemma index_constants_fit_size_t :
  let wrap z := (z mod 2 ^ 64)%Z in
  let n := Z.of_nat N in
  let ys := wrap (Z.of_nat x_start + n)%Z in
  let ps := wrap (ys + n)%Z in
  let vs := wrap (ps + n)%Z in
  let cs := wrap (vs + n)%Z in
  let es := wrap (cs + n)%Z in
  let ds := wrap (es + n)%Z in
  let as_ := wrap (wrap (ds + n) - 1)%Z in
  ys = Z.of_nat y_start ∧ ps = Z.of_nat psi_start ∧ vs = Z.of_nat v_start
  ∧ cs = Z.of_nat cte_start ∧ es = Z.of_nat epsi_start
  ∧ ds = Z.of_nat delta_start ∧ as_ = Z.of_nat a_start
  ∧ wrap (wrap (n * 6) + wrap (wrap (n - 1) * 2))%Z = Z.of_nat n_vars
  ∧ wrap (n * 6)%Z = Z.of_nat n_constraints.
Proof. vm_compute. repeat split. Qed.

(** ** Vectors and loops *)

Lemma vget_in_range (v : Dvector) (i : nat) :
  i < length v → vget v i = Ok (nth i v 0%R).
Proof.
  intros Hi. unfold vget. destruct (v !! i) as [r|] eqn:E.
  - f_equal. symmetry. by apply nth_lookup_Some.
  - apply lookup_ge_None in E. lia.
Qed.

Lemma vget_Ok (v : Dvector) (i : nat) (r : R) :
  vget v i = Ok r ↔ v !! i = Some r.
Proof.
  unfold vget. destruct (v !! i); split; intros E; by simplify_eq.
Qed.

Lemma vset_in_range (v : Dvector) (i : nat) (r : R) :
  i < length v → vset v i r = Ok (<[i:=r]> v).
Proof. intros Hi. unfold vset. by rewrite decide_True. Qed.

Lemma lookup_nth_in_range (v : Dvector) (i : nat) :
  i < length v → v !! i = Some (nth i v 0%R).
Proof.
  intros Hi. destruct (v !! i) as [r|] eqn:E.
  - f_equal. symmetry. by apply nth_lookup_Some.
  - apply lookup_ge_None in E. lia.
Qed.

(** The loop rule: an invariant that holds on entry and that every iteration
    re-establishes, without aborting, holds on exit, and the loop returns. *)
Lemma for_loop_invariant {St : Type} (Inv : nat → St → Prop)
    (body : nat → St → outcome St) (count lo : nat) (s : St) :
  Inv lo s →
  (∀ t s, lo ≤ t < lo + count → Inv t s →
          ∃ s', body t s = Ok s' ∧ Inv (S t) s') →
  ∃ s', for_loop lo count body s = Ok s' ∧ Inv (lo + count) s'.
Proof.
  revert lo s. induction count as [|c IH]; intros lo s H0 Hstep.
  - exists s. rewrite Nat.add_0_r. done.
  - destruct (Hstep lo s) as (s1 & E1 & H1); [lia | done |].
    destruct (IH (S lo) s1) as (s2 & E2 & H2); [done | |].
    + intros t s' Ht. apply Hstep. lia.
    + exists s2. split.
      * simpl. rewrite E1. exact E2.
      * by replace (lo + S c) with (S lo + c) by lia.
Qed.

(** ** The horizon problem *)

Lemma Rsum_sum_f_R0 (f : nat → R) (n : nat) : Rsum f (S n) = sum_f_R0 f n.
Proof.
  induction n as [|n IH]; simpl in *.
  - lra.
  - rewrite <- IH. lra.
Qed.

Lemma N_bounds : 3 ≤ N ∧ N ≤ 1000.
Proof. unfold N. lia. Qed.

Ltac layout :=
  unfold n_vars, n_constraints, a_start, delta_start, epsi_start, cte_start,
         v_start, psi_start, y_start, x_start in *.

Ltac solve_index :=
  pose proof N_bounds; rewrite ?length_insert; layout; simpl length; lia.

Ltac run1 :=
  first
    [ rewrite vget_in_range by solve_index
    | rewrite vset_in_range by solve_index ];
  cbn [mbind outcome_bind].

Lemma vadd_head (c r : R) (rest : Dvector) :
  vadd (c :: rest) 0 r = Ok ((c + r)%R :: rest).
Proof. unfold vadd. simpl. rewrite vset_in_range by (simpl; lia). done. Qed.

(** A loop whose iterations each add [f t] to the head of the vector adds
    their sum. *)
Lemma accumulate_loop (body : nat → Dvector → outcome Dvector)
    (f : nat → R) (n : nat) (c : R) (rest : Dvector) :
  (∀ t c, t < n → ∃ c', body t (c :: rest) = Ok (c' :: rest)
                        ∧ c' = (c + f t)%R) →
  ∃ c', for_loop 0 n body (c :: rest) = Ok (c' :: rest)
        ∧ c' = (c + Rsum f n)%R.
Proof.
  intros Hbody.
  destruct (for_loop_invariant
              (λ t s, ∃ c', s = c' :: rest ∧ c' = (c + Rsum f t)%R)
              body n 0 (c :: rest)) as (s & E & c' & -> & Hc).
  - exists c. split; [done | simpl; lra].
  - intros t s Ht (c1 & -> & Hc1).
    destruct (Hbody t c1) as (c2 & E2 & Hc2); [lia |].
    exists (c2 :: rest). split; [done |].
    exists c2. split; [done |]. simpl. lra.
  - exists c'. done.
Qed.

(** Distinct channels and steps have distinct constraint entries. *)
Lemma channel_index_inj k1 k2 t1 t2 :
  t1 < N → t2 < N →
  1 + channel_start k1 + t1 = 1 + channel_start k2 + t2 →
  k1 = k2 ∧ t1 = t2.
Proof.
  intros H1 H2 E. destruct k1, k2; cbn [channel_start] in E; layout;
    first [ split; [reflexivity | lia] | exfalso; lia ].
Qed.

(** One evaluator [o], holding a cubic and seven weights, called on one
    decision vector [vars]. *)
Section horizon_problem.

Context (o : FG_eval) (vars : Dvector).
Hypothesis Hcoeffs : 4 ≤ length (coeffs o).
Hypothesis Hweights : 7 ≤ length (weights o).
Hypothesis Hvars : length vars = n_vars.

Lemma cost_state_step t c rest :
  t < N →
  ∃ c', cost_state o vars t (c :: rest) = Ok (c' :: rest)
        ∧ c' = (c + state_term (weights o) vars t)%R.
Proof using All.
  intros Ht. unfold cost_state.
  repeat (first [run1 | rewrite vadd_head; cbn [mbind outcome_bind]]).
  eexists. split; [done |].
  unfold state_term, weight, cte_at, epsi_at, v_at. ring.
Qed.

Lemma cost_actuation_step t c rest :
  t < N - 1 →
  ∃ c', cost_actuation o vars t (c :: rest) = Ok (c' :: rest)
        ∧ c' = (c + actuation_term (weights o) vars t)%R.
Proof using All.
  intros Ht. unfold cost_actuation.
  repeat (first [run1 | rewrite vadd_head; cbn [mbind outcome_bind]]).
  eexists. split; [done |].
  unfold actuation_term, weight, delta_at, a_at. ring.
Qed.

Lemma cost_gap_step t c rest :
  t < N - 2 →
  ∃ c', cost_gap o vars t (c :: rest) = Ok (c' :: rest)
        ∧ c' = (c + gap_term (weights o) vars t)%R.
Proof using All.
  intros Ht. unfold cost_gap.
  repeat (first [run1 | rewrite vadd_head; cbn [mbind outcome_bind]]).
  eexists. split; [done |].
  unfold gap_term, weight, delta_at, a_at.
  replace (delta_start + (t + 1)) with (delta_start + t + 1) by lia.
  replace (a_start + (t + 1)) with (a_start + t + 1) by lia.
  ring.
Qed.

Lemma model_constraints_step t fg :
  length fg = S n_constraints → 1 ≤ t < N →
  model_constraints o vars t fg = Ok (store_step o vars t fg).
Proof using All.
  intros Hfg Ht. unfold model_constraints.
  repeat run1. cbv zeta. repeat run1. done.
Qed.

Lemma store_step_length t fg :
  length (store_step o vars t fg) = length fg.
Proof. unfold store_step. by rewrite !length_insert. Qed.

Lemma store_step_other t fg j :
  (∀ k, j ≠ 1 + channel_start k + t) →
  store_step o vars t fg !! j = fg !! j.
Proof.
  intros Hj. unfold store_step.
  pose proof (Hj Cx). pose proof (Hj Cy). pose proof (Hj Cpsi).
  pose proof (Hj Cv). pose proof (Hj Ccte). pose proof (Hj Cepsi).
  simpl in *. by rewrite !list_lookup_insert_ne by lia.
Qed.

Lemma store_step_same t fg k :
  length fg = S n_constraints → t < N →
  store_step o vars t fg !! (1 + channel_start k + t)
  = Some (residual o vars k t).
Proof.
  intros Hfg Ht. unfold store_step. pose proof N_bounds.
  destruct k; cbn [channel_start];
    rewrite ?list_lookup_insert_ne by (layout; lia);
    apply list_lookup_insert_eq; rewrite ?length_insert; layout; lia.
Qed.

(** The constraint loop stores every residual of steps [1] to [N - 1] and
    writes nothing else. *)
Lemma constraint_loop fg :
  length fg = S n_constraints →
  ∃ fg', for_loop 1 (N - 1) (model_constraints o vars) fg = Ok fg'
    ∧ length fg' = S n_constraints
    ∧ (∀ j, (∀ k t, 1 ≤ t < N → j ≠ 1 + channel_start k + t) →
            fg' !! j = fg !! j)
    ∧ (∀ k t, 1 ≤ t < N →
              fg' !! (1 + channel_start k + t) = Some (residual o vars k t)).
Proof using All.
  intros Hfg. pose proof N_bounds as HN.
  destruct (for_loop_invariant
    (λ t fg', length fg' = S n_constraints
       ∧ (∀ j, (∀ k t', 1 ≤ t' < t → j ≠ 1 + channel_start k + t') →
               fg' !! j = fg !! j)
       ∧ (∀ k t', 1 ≤ t' < t →
             fg' !! (1 + channel_start k + t') = Some (residual o vars k t')))
    (model_constraints o vars) (N - 1) 1 fg) as (fg' & E & I1 & I2 & I3).
  - split; [done |]. split; [done |]. intros k t' Ht'. lia.
  - intros t s Ht (I1 & I2 & I3).
    exists (store_step o vars t s). split.
    { apply model_constraints_step; [done | lia]. }
    split; [by rewrite store_step_length |]. split.
    + intros j Hj. rewrite store_step_other.
      * apply I2. intros k t' Ht'. apply Hj. lia.
      * intros k. apply Hj. lia.
    + intros k t' Ht'. destruct (decide (t' = t)) as [-> | Hne].
      * apply store_step_same; [done | lia].
      * rewrite store_step_other; [apply I3; lia |].
        intros k2 E2. apply channel_index_inj in E2; lia.
  - replace (1 + (N - 1)) with N in * by lia. exists fg'. done.
Qed.

(** [FG_eval::operator()] up to its last loop. *)
Lemma FG_eval_call_prefix fg :
  length fg = S n_constraints →
  FG_eval_call o fg vars
  = for_loop 1 (N - 1) (model_constraints o vars)
      (store_initial vars (cost_accumulated (weights o) vars :: tail fg)).
Proof using All.
  intros Hfg. pose proof N_bounds as HN.
  destruct fg as [|c rest]; [discriminate |]. simpl in Hfg.
  unfold FG_eval_call.
  rewrite vset_in_range by (simpl; lia). cbn [mbind outcome_bind].
  change (<[0:=0%R]> (c :: rest)) with (0%R :: rest).
  rewrite !Nat.sub_0_r.
  destruct (accumulate_loop (cost_state o vars) (state_term (weights o) vars)
              N 0%R rest) as (c1 & -> & Hc1).
  { intros t c' Ht. by apply cost_state_step. }
  cbn [mbind outcome_bind].
  destruct (accumulate_loop (cost_actuation o vars)
              (actuation_term (weights o) vars) (N - 1) c1 rest)
    as (c2 & -> & Hc2).
  { intros t c' Ht. by apply cost_actuation_step. }
  cbn [mbind outcome_bind].
  destruct (accumulate_loop (cost_gap o vars) (gap_term (weights o) vars)
              (N - 2) c2 rest) as (c3 & -> & Hc3).
  { intros t c' Ht. by apply cost_gap_step. }
  cbn [mbind outcome_bind].
  repeat run1.
  unfold store_initial, cost_accumulated. simpl tail.
  by rewrite Hc3, Hc2, Hc1.
Qed.

(** [FG_eval::operator()] returns, and this is what it leaves in [fg]. *)
Lemma FG_eval_call_spec fg :
  length fg = S n_constraints →
  ∃ fg', FG_eval_call o fg vars = Ok fg'
    ∧ length fg' = S n_constraints
    ∧ fg' !! 0 = Some (cost_accumulated (weights o) vars)
    ∧ (∀ k, fg' !! (1 + channel_start k)
            = Some (nth (channel_start k) vars 0%R))
    ∧ (∀ k t, 1 ≤ t < N →
              fg' !! (1 + channel_start k + t) = Some (residual o vars k t)).
Proof using All.
  intros Hfg. pose proof N_bounds as HN.
  rewrite FG_eval_call_prefix by done.
  set (fg0 := store_initial _ _).
  assert (Hlen0 : length fg0 = S n_constraints).
  { unfold fg0, store_initial. rewrite !length_insert.
    destruct fg; [discriminate | done]. }
  assert (Hfg0 : ∀ k, fg0 !! (1 + channel_start k)
                      = Some (nth (channel_start k) vars 0%R)).
  { intros k. unfold fg0, store_initial.
    destruct fg as [|c rest]; [discriminate |]. simpl in Hfg.
    destruct k; cbn [channel_start];
      rewrite ?list_lookup_insert_ne by (layout; lia);
      apply list_lookup_insert_eq; rewrite ?length_insert; solve_index. }
  assert (Hfg00 : fg0 !! 0 = Some (cost_accumulated (weights o) vars)).
  { unfold fg0, store_initial. by rewrite !list_lookup_insert_ne by lia. }
  destruct (constraint_loop fg0 Hlen0) as (fg' & -> & L & Hother & Hrows).
  exists fg'. split; [done |]. split; [done |]. split; [| split].
  - rewrite Hother; [done |]. intros k t Ht. lia.
  - intros k. rewrite Hother; [apply Hfg0 |].
    intros k2 t Ht E.
    replace (1 + channel_start k) with (1 + channel_start k + 0) in E by lia.
    apply channel_index_inj in E; lia.
  - exact Hrows.
Qed.

End horizon_problem.

(** ** The fitted polynomial *)

Lemma polyeval_cubic (c : Dvector) (x : R) :
  length c = 4 →
  polyeval c x
  = (nth 0 c 0 + nth 1 c 0 * x + nth 2 c 0 * x * x + nth 3 c 0 * x * x * x)%R.
Proof.
  intros Hc. destruct c as [|c0 [|c1 [|c2 [|c3 [|]]]]]; try discriminate.
  unfold polyeval. simpl. ring.
Qed.

Lemma derivable_pt_lim_ext (f g : R → R) (x l : R) :
  (∀ y, f y = g y) → derivable_pt_lim f x l → derivable_pt_lim g x l.
Proof.
  intros Hfg D eps Heps. destruct (D eps Heps) as [delta Hdelta].
  exists delta. intros h Hh Hlt. rewrite <- !Hfg. by apply Hdelta.
Qed.

(** The slope of the fitted cubic, as the constraint loop computes it, is
    the derivative of [polyeval]. *)
Lemma polyeval_cubic_slope (c : Dvector) (x : R) :
  length c = 4 →
  derivable_pt_lim (polyeval c) x
    (1 * nth 1 c 0 + 2 * nth 2 c 0 * x + 3 * nth 3 c 0 * x * x)%R.
Proof.
  intros Hc.
  apply (derivable_pt_lim_ext
           (λ y, nth 0 c 0 + nth 1 c 0 * y ^ 1 + nth 2 c 0 * y ^ 2
                 + nth 3 c 0 * y ^ 3)%R).
  { intros y. rewrite polyeval_cubic by done. ring. }
  replace (1 * nth 1 c 0 + 2 * nth 2 c 0 * x + 3 * nth 3 c 0 * x * x)%R
    with (0 + nth 1 c 0 * (INR 1 * x ^ pred 1)
          + nth 2 c 0 * (INR 2 * x ^ pred 2)
          + nth 3 c 0 * (INR 3 * x ^ pred 3))%R
    by (simpl; ring).
  repeat apply (derivable_pt_lim_plus _ _ x).
  - apply derivable_pt_lim_const.
  - apply (derivable_pt_lim_scal (λ y, y ^ 1)%R). apply derivable_pt_lim_pow.
  - apply (derivable_pt_lim_scal (λ y, y ^ 2)%R). apply derivable_pt_lim_pow.
  - apply (derivable_pt_lim_scal (λ y, y ^ 3)%R). apply derivable_pt_lim_pow.
Qed.

(** ** The objective *)

Lemma cost_accumulated_objective (w vars : Dvector) :
  cost_accumulated w vars = objective_spec w vars.
Proof.
  pose proof N_bounds as HN. unfold cost_accumulated, objective_spec.
  replace N with (S (N - 1)) at 1 by lia.
  replace (N - 1) with (S (N - 2)) at 2 by lia.
  replace (N - 2) with (S (N - 3)) at 2 by lia.
  rewrite !Rsum_sum_f_R0. unfold state_term, actuation_term, gap_term. lra.
Qed.

(** C3. For every decision vector and every seven weights, [operator()]
    returns and leaves in [fg[0]] the sum of the seven weighted quadratic
    terms: tracking errors and speed over [t = 0..N-1], actuator use over
    [t = 0..N-2], actuator changes over [t = 0..N-3]; [ref_v] is the fixed
    reference speed 50. *)
Theorem FG_eval_objective (o : FG_eval) (fg vars : Dvector) :
  length (coeffs o) = 4 → length (weights o) = 7 →
  length vars = n_vars → length fg = S n_constraints →
  ∃ fg', FG_eval_call o fg vars = Ok fg'
         ∧ fg' !! 0 = Some (objective_spec (weights o) vars)
         ∧ ref_v = 50%R.
Proof.
  intros Hc Hw Hv Hfg.
  destruct (FG_eval_call_spec o vars) with (fg := fg)
    as (fg' & E & _ & H0 & _); [lia | lia | done | done |].
  exists fg'. split; [done |]. split; [| done].
  by rewrite <- cost_accumulated_objective.
Qed.

Lemma FG_eval_objective_witness :
  let o := {| coeffs := [0; 0; 0; 0]%R; weights := default_weights |} in
  let fg := replicate 49 0%R in
  let vars := replicate 62 1%R in
  ∃ fg', FG_eval_call o fg vars = Ok fg'
         ∧ fg' !! 0 = Some (objective_spec (weights o) vars)
         ∧ ref_v = 50%R.
Proof.
  intros o fg vars. apply (FG_eval_objective o fg vars); reflexivity.
Defined.

(** ** The dynamics residuals *)

Lemma prev_index (s t : nat) : 1 ≤ t → s + t - 1 = s + (t - 1).
Proof. lia. Qed.

(** C2. For every step [t = 1..N-1] and every decision vector, the six
    constraint entries of that step are the stated next state minus the
    kinematic model's prediction from step [t-1]; the cte and epsi entries use
    the value of the fitted cubic, [polyeval], and the arctangent of its
    derivative, both at the position [x] of step [t-1]. *)
Theorem FG_eval_dynamics_residuals (o : FG_eval) (fg vars : Dvector)
    (t : nat) :
  length (coeffs o) = 4 → length (weights o) = 7 →
  length vars = n_vars → length fg = S n_constraints → 1 ≤ t < N →
  let f := polyeval (coeffs o) in
  let x0 := x_at vars (t - 1) in
  let y0 := y_at vars (t - 1) in
  let psi0 := psi_at vars (t - 1) in
  let v0 := v_at vars (t - 1) in
  let epsi0 := epsi_at vars (t - 1) in
  let delta0 := delta_at vars (t - 1) in
  let a0 := a_at vars (t - 1) in
  ∃ fg' slope,
    FG_eval_call o fg vars = Ok fg'
    ∧ derivable_pt_lim f x0 slope
    ∧ fg' !! (1 + x_start + t)
      = Some (x_at vars t - (x0 + v0 * cos psi0 * dt))%R
    ∧ fg' !! (1 + y_start + t)
      = Some (y_at vars t - (y0 + v0 * sin psi0 * dt))%R
    ∧ fg' !! (1 + psi_start + t)
      = Some (psi_at vars t - (psi0 + (v0 / Lf) * delta0 * dt))%R
    ∧ fg' !! (1 + v_start + t)
      = Some (v_at vars t - (v0 + a0 * dt))%R
    ∧ fg' !! (1 + cte_start + t)
      = Some (cte_at vars t - ((f x0 - y0) + v0 * sin epsi0 * dt))%R
    ∧ fg' !! (1 + epsi_start + t)
      = Some (epsi_at vars t
              - ((psi0 - atan slope) + (v0 / Lf) * delta0 * dt))%R.
Proof.
  intros Hc Hw Hv Hfg Ht f x0 y0 psi0 v0 epsi0 delta0 a0.
  destruct (FG_eval_call_spec o vars) with (fg := fg)
    as (fg' & E & _ & _ & _ & Hrows); [lia | lia | done | done |].
  exists fg', (1 * nth 1 (coeffs o) 0 + 2 * nth 2 (coeffs o) 0 * x0
               + 3 * nth 3 (coeffs o) 0 * x0 * x0)%R.
  split; [done |]. split; [by apply polyeval_cubic_slope |].
  pose proof (Hrows Cx t Ht) as Hx. pose proof (Hrows Cy t Ht) as Hy.
  pose proof (Hrows Cpsi t Ht) as Hpsi. pose proof (Hrows Cv t Ht) as Hvv.
  pose proof (Hrows Ccte t Ht) as Hcte. pose proof (Hrows Cepsi t Ht) as Hepsi.
  cbn [channel_start] in *. unfold residual in *.
  rewrite !prev_index in * by lia.
  fold x0 y0 psi0 v0 epsi0 delta0 a0 in Hx, Hy, Hpsi, Hvv, Hcte, Hepsi.
  rewrite Hx, Hy, Hpsi, Hvv, Hcte, Hepsi.
  unfold f. rewrite (polyeval_cubic (coeffs o) x0 Hc).
  subst x0 y0 psi0 v0 epsi0 delta0 a0.
  unfold x_at, y_at, psi_at, v_at, epsi_at, delta_at, a_at.
  repeat split; apply (f_equal Some); unfold Rdiv; ring.
Qed.

Lemma FG_eval_dynamics_residuals_witness :
  let o := {| coeffs := [1; 2; 3; 4]%R; weights := default_weights |} in
  let fg := replicate 49 0%R in
  let vars := replicate 62 1%R in
  ∃ fg' slope,
    FG_eval_call o fg vars = Ok fg'
    ∧ derivable_pt_lim (polyeval (coeffs o)) (x_at vars 0) slope
    ∧ fg' !! (1 + x_start + 1)
      = Some (x_at vars 1
              - (x_at vars 0 + v_at vars 0 * cos (psi_at vars 0) * dt))%R
    ∧ fg' !! (1 + y_start + 1)
      = Some (y_at vars 1
              - (y_at vars 0 + v_at vars 0 * sin (psi_at vars 0) * dt))%R
    ∧ fg' !! (1 + psi_start + 1)
      = Some (psi_at vars 1
              - (psi_at vars 0
                 + (v_at vars 0 / Lf) * delta_at vars 0 * dt))%R
    ∧ fg' !! (1 + v_start + 1)
      = Some (v_at vars 1 - (v_at vars 0 + a_at vars 0 * dt))%R
    ∧ fg' !! (1 + cte_start + 1)
      = Some (cte_at vars 1
              - ((polyeval (coeffs o) (x_at vars 0) - y_at vars 0)
                 + v_at vars 0 * sin (epsi_at vars 0) * dt))%R
    ∧ fg' !! (1 + epsi_start + 1)
      = Some (epsi_at vars 1
              - ((psi_at vars 0 - atan slope)
                 + (v_at vars 0 / Lf) * delta_at vars 0 * dt))%R.
Proof.
  intros o fg vars.
  apply (FG_eval_dynamics_residuals o fg vars 1);
    [reflexivity | reflexivity | reflexivity | reflexivity | unfold N; lia].
Defined.

(** ** The problem handed to the solver *)

Lemma pin_state_length x y psi v cte epsi l :
  length (pin_state x y psi v cte epsi l) = length l.
Proof. unfold pin_state. by rewrite !length_insert. Qed.

Lemma pin_state_at x y psi v cte epsi l k :
  n_constraints ≤ length l →
  pin_state x y psi v cte epsi l !! channel_start k
  = Some (match k with
          | Cx => x | Cy => y | Cpsi => psi
          | Cv => v | Ccte => cte | Cepsi => epsi
          end).
Proof.
  intros Hl. unfold pin_state. pose proof N_bounds.
  destruct k; cbn [channel_start];
    rewrite ?list_lookup_insert_ne by (layout; lia);
    apply list_lookup_insert_eq; rewrite ?length_insert; layout; lia.
Qed.

Lemma pin_state_other x y psi v cte epsi l j :
  (∀ k, j ≠ channel_start k) →
  pin_state x y psi v cte epsi l !! j = l !! j.
Proof.
  intros Hj. unfold pin_state.
  pose proof (Hj Cx). pose proof (Hj Cy). pose proof (Hj Cpsi).
  pose proof (Hj Cv). pose proof (Hj Ccte). pose proof (Hj Cepsi).
  cbn [channel_start] in *. by rewrite !list_lookup_insert_ne by done.
Qed.

Lemma Dvector_new_length `{Platform} (n : nat) : length (Dvector_new n) = n.
Proof. unfold Dvector_new. by rewrite length_map, length_seq. Qed.

(** A loop that stores [c] in entries [lo] to [lo + count - 1]. *)
Lemma fill_loop (c : R) (count lo : nat) (v : Dvector) :
  lo + count ≤ length v →
  ∃ v', for_loop lo count (λ i v, vset v i c) v = Ok v'
    ∧ length v' = length v
    ∧ (∀ j, lo ≤ j < lo + count → v' !! j = Some c)
    ∧ (∀ j, ¬ lo ≤ j < lo + count → v' !! j = v !! j).
Proof.
  intros Hlen.
  apply (for_loop_invariant
    (λ t v', length v' = length v
       ∧ (∀ j, lo ≤ j < t → v' !! j = Some c)
       ∧ (∀ j, ¬ lo ≤ j < t → v' !! j = v !! j))).
  - split; [done |]. split; [intros j Hj; lia | done].
  - intros t s Ht (I1 & I2 & I3). exists (<[t:=c]> s).
    split; [apply vset_in_range; lia |].
    split; [by rewrite length_insert |]. split.
    + intros j Hj. destruct (decide (j = t)) as [-> | Hne].
      * apply list_lookup_insert_eq. lia.
      * rewrite list_lookup_insert_ne by done. apply I2. lia.
    + intros j Hj. rewrite list_lookup_insert_ne by lia. apply I3. lia.
Qed.

(** A loop that stores the bounds [lo_b] and [up_b] in entries [lo] to
    [lo + count - 1] of the two bound vectors. *)
Lemma set_bounds_loop (lo_b up_b : R) (count lo : nat)
    (b : list R * list R) :
  lo + count ≤ length b.1 → lo + count ≤ length b.2 →
  ∃ b', for_loop lo count (set_bounds lo_b up_b) b = Ok b'
    ∧ length b'.1 = length b.1 ∧ length b'.2 = length b.2
    ∧ (∀ j, lo ≤ j < lo + count →
            b'.1 !! j = Some lo_b ∧ b'.2 !! j = Some up_b)
    ∧ (∀ j, ¬ lo ≤ j < lo + count →
            b'.1 !! j = b.1 !! j ∧ b'.2 !! j = b.2 !! j).
Proof.
  intros Hlen1 Hlen2.
  apply (for_loop_invariant
    (λ t b', length b'.1 = length b.1 ∧ length b'.2 = length b.2
       ∧ (∀ j, lo ≤ j < t → b'.1 !! j = Some lo_b ∧ b'.2 !! j = Some up_b)
       ∧ (∀ j, ¬ lo ≤ j < t → b'.1 !! j = b.1 !! j ∧ b'.2 !! j = b.2 !! j))).
  - split; [done |]. split; [done |]. split; [intros j Hj; lia | done].
  - intros t s Ht (I1 & I2 & I3 & I4).
    exists (<[t:=lo_b]> s.1, <[t:=up_b]> s.2). split.
    { unfold set_bounds. rewrite !vset_in_range by lia. done. }
    cbn [fst snd]. rewrite !length_insert.
    split; [done |]. split; [done |]. split.
    + intros j Hj. destruct (decide (j = t)) as [-> | Hne].
      * split; apply list_lookup_insert_eq; lia.
      * rewrite !list_lookup_insert_ne by done. apply I3. lia.
    + intros j Hj. rewrite !list_lookup_insert_ne by lia. apply I4. lia.
Qed.

Lemma Solve_problem_spec `{Platform} (mpc : MPC) (state coeffs : Dvector) :
  6 ≤ length state →
  ∃ p, Solve_problem mpc state coeffs = Ok p
       ∧ problem_built mpc state coeffs p.
Proof.
  intros Hs. pose proof N_bounds as HN. unfold Solve_problem.
  rewrite !vget_in_range by lia. cbn [mbind outcome_bind]. cbv zeta.
  fold n_vars n_constraints. rewrite !Nat.sub_0_r.
  destruct (fill_loop 0%R n_vars 0 (Dvector_new n_vars))
    as (vars & -> & Lv & Vin & _).
  { by rewrite Dvector_new_length. }
  rewrite Dvector_new_length in Lv. cbn [mbind outcome_bind].
  repeat run1.
  destruct (set_bounds_loop (-1.0e19) 1.0e19 delta_start 0
              (Dvector_new n_vars, Dvector_new n_vars))
    as (b1 & -> & L11 & L12 & B1in & B1out).
  1, 2: cbn [fst snd]; rewrite Dvector_new_length; layout; lia.
  cbn [fst snd] in *. rewrite Dvector_new_length in L11, L12.
  cbn [mbind outcome_bind].
  destruct (set_bounds_loop (-0.436332) 0.436332 (a_start - delta_start)
              delta_start b1) as (b2 & -> & L21 & L22 & B2in & B2out).
  1, 2: layout; lia.
  cbn [mbind outcome_bind].
  destruct (set_bounds_loop (-1.0) 1.0 (n_vars - a_start) a_start b2)
    as (b3 & -> & L31 & L32 & B3in & B3out).
  1, 2: layout; lia.
  cbn [mbind outcome_bind].
  destruct (set_bounds_loop 0 0 n_constraints 0
              (Dvector_new n_constraints, Dvector_new n_constraints))
    as (g & -> & Lg1 & Lg2 & Gin & _).
  1, 2: cbn [fst snd]; rewrite Dvector_new_length; lia.
  cbn [fst snd] in *. rewrite Dvector_new_length in Lg1, Lg2.
  cbn [mbind outcome_bind].
  repeat run1.
  eexists. split; [reflexivity |].
  set (x := nth 0 state 0%R). set (y := nth 1 state 0%R).
  set (psi := nth 2 state 0%R). set (v := nth 3 state 0%R).
  set (cte := nth 4 state 0%R). set (epsi := nth 5 state 0%R).
  fold (pin_state x y psi v cte epsi vars).
  fold (pin_state x y psi v cte epsi g.1).
  fold (pin_state x y psi v cte epsi g.2).
  assert (Hst : ∀ k, match k with
                     | Cx => x | Cy => y | Cpsi => psi
                     | Cv => v | Ccte => cte | Cepsi => epsi
                     end = nth (channel_pos k) state 0%R)
    by (by intros []).
  split; cbn [ipopt.options ipopt.fg_eval ipopt.xi ipopt.xl ipopt.xu
              ipopt.gl ipopt.gu].
  - done.
  - done.
  - by rewrite pin_state_length.
  - lia.
  - lia.
  - by rewrite pin_state_length.
  - by rewrite pin_state_length.
  - intros k. rewrite pin_state_at by (layout; lia). by rewrite Hst.
  - intros j Hj Hk. rewrite pin_state_other by done. apply Vin. lia.
  - intros j Hj.
    destruct (B3out j) as [-> ->]; [layout; lia |].
    destruct (B2out j) as [-> ->]; [layout; lia |].
    apply B1in. lia.
  - intros j Hj.
    destruct (B3out j) as [-> ->]; [layout; lia |].
    apply B2in. layout; lia.
  - intros j Hj. apply B3in. layout; lia.
  - intros k. rewrite !pin_state_at by lia. by rewrite Hst.
  - intros j Hj Hk. rewrite !pin_state_other by done. apply Gin. lia.
Qed.

Lemma channel_start_pos (k : channel) : channel_start k = channel_pos k * N.
Proof. destruct k; cbn [channel_start channel_pos]; layout; lia. Qed.

Lemma channel_of_pos (i : nat) : i < 6 → ∃ k, channel_pos k = i.
Proof.
  intros Hi.
  destruct i as [|[|[|[|[|[|]]]]]];
    [by exists Cx | by exists Cy | by exists Cpsi | by exists Cv
     | by exists Ccte | by exists Cepsi | lia].
Qed.

Lemma channel_pos_bound (k : channel) : channel_pos k < 6.
Proof. destruct k; cbn; lia. Qed.

(** ** C4: one layout for the initial guess, the bounds and the constraints *)

(** C4. The decision vector has [6N + 2(N-1)] entries, in contiguous blocks:
    x, y, psi, v, cte, epsi of [N] entries each, then delta and a of [N-1]
    entries each.  The problem [MPC::Solve] builds uses these blocks for the
    initial guess (the state at the first entry of each state block, zero
    elsewhere) and for the variable bounds (one pair of bounds per block
    kind); [operator()] reads its initial-state constraints from the first
    entry of each state block and the residual of channel [k] at step [t]
    from entry [t] of block [k] and entries [t-1] of the blocks. *)
Theorem decision_vector_layout `{Platform} (mpc : MPC)
    (state coeffs : Dvector) :
  length state = 6 →
  n_vars = 6 * N + 2 * (N - 1)
  ∧ x_start = 0 ∧ y_start = x_start + N ∧ psi_start = y_start + N
  ∧ v_start = psi_start + N ∧ cte_start = v_start + N
  ∧ epsi_start = cte_start + N ∧ delta_start = epsi_start + N
  ∧ a_start = delta_start + (N - 1) ∧ n_vars = a_start + (N - 1)
  ∧ ∃ p, Solve_problem mpc state coeffs = Ok p
    ∧ length (ipopt.xi p) = n_vars
    ∧ length (ipopt.xl p) = n_vars
    ∧ length (ipopt.xu p) = n_vars
    ∧ (∀ k, ipopt.xi p !! channel_start k = state !! channel_pos k)
    ∧ (∀ j, j < n_vars → (∀ k, j ≠ channel_start k) →
            ipopt.xi p !! j = Some 0%R)
    ∧ (∀ k t, t < N →
         ipopt.xl p !! (channel_start k + t) = Some (-1.0e19)%R
         ∧ ipopt.xu p !! (channel_start k + t) = Some 1.0e19%R)
    ∧ (∀ t, t < N - 1 →
         ipopt.xl p !! (delta_start + t) = Some (-0.436332)%R
         ∧ ipopt.xu p !! (delta_start + t) = Some 0.436332%R)
    ∧ (∀ t, t < N - 1 →
         ipopt.xl p !! (a_start + t) = Some (-1.0)%R
         ∧ ipopt.xu p !! (a_start + t) = Some 1.0%R)
    ∧ (∀ fg vars,
         length coeffs = 4 → length (mpc_weights mpc) = 7 →
         length vars = n_vars → length fg = S n_constraints →
         ∃ fg', FG_eval_call (ipopt.fg_eval p) fg vars = Ok fg'
           ∧ (∀ k, fg' !! (1 + channel_start k) = vars !! channel_start k)
           ∧ ∀ k t, 1 ≤ t < N →
               fg' !! (1 + channel_start k + t)
               = Some (residual (ipopt.fg_eval p) vars k t)).
Proof.
  intros Hs. pose proof N_bounds as HN.
  repeat (split; [layout; lia |]).
  destruct (Solve_problem_spec mpc state coeffs) as (p & E & B); [lia |].
  destruct B. exists p.
  split; [done |]. split; [done |]. split; [done |]. split; [done |].
  split; [| split; [done |]; split; [| split; [| split]]].
  - intros k. rewrite built_xi_state0. symmetry.
    apply lookup_nth_in_range. pose proof (channel_pos_bound k). lia.
  - intros k t Ht. apply built_bounds_state0.
    destruct k; cbn [channel_start]; layout; lia.
  - intros t Ht. apply built_bounds_delta0. layout; lia.
  - intros t Ht. apply built_bounds_a0. layout; lia.
  - intros fg vars Hc Hw Hv Hfg. rewrite built_fg_eval0.
    destruct (FG_eval_call_spec {| coeffs := coeffs;
                                   weights := mpc_weights mpc |} vars)
      with (fg := fg) as (fg' & E' & _ & _ & Hinit & Hrows); simpl;
      [lia | lia | done | done |].
    exists fg'. split; [done |]. split; [| exact Hrows].
    intros k. rewrite Hinit. symmetry.
    apply lookup_nth_in_range. rewrite Hv.
    destruct k; cbn [channel_start]; layout; lia.
Qed.

Lemma decision_vector_layout_witness :
  let state := [0; 0; 0; 10; 0; 0]%R in
  length state = 6
  ∧ ∃ p, @Solve_problem (still_platform ipopt.success)
           (mk_MPC default_weights) state [0; 0; 0; 0]%R = Ok p
         ∧ length (ipopt.xi p) = n_vars
         ∧ ipopt.xi p !! v_start = Some 10%R.
Proof.
  intros state. split; [reflexivity |].
  destruct (@decision_vector_layout (still_platform ipopt.success)
              (mk_MPC default_weights) state [0; 0; 0; 0]%R eq_refl)
    as (_ & _ & _ & _ & _ & _ & _ & _ & _ & _ & p & E & L & _ & _ & Hxi & _).
  exists p. split; [exact E |]. split; [exact L |]. exact (Hxi Cv).
Defined.

(** ** C5: the bounds of the constraints *)

(** For the state [(1, 2, 3, 4, 5, 6)] the bounds of entry 1 are zero and
    [y = 2] is the bound of entry [y_start = 8]: the pinned entries are not
    the first six. *)
Lemma first_six_entries_counterexample :
  let state := [1; 2; 3; 4; 5; 6]%R in
  ∃ p, @Solve_problem (still_platform ipopt.success)
         (mk_MPC default_weights) state [0; 0; 0; 0]%R = Ok p
       ∧ ipopt.gl p !! 1 = Some 0%R
       ∧ ipopt.gl p !! 8 = Some 2%R
       ∧ ¬ first_six_entries_pin_state state p.
Proof.
  intros state.
  destruct (@Solve_problem_spec (still_platform ipopt.success)
              (mk_MPC default_weights) state [0; 0; 0; 0]%R) as (p & E & B).
  { simpl. lia. }
  destruct B. exists p. split; [exact E |].
  assert (H1 : ipopt.gl p !! 1 = Some 0%R).
  { apply built_g_zero0; [unfold n_constraints, N; lia |].
    intros []; cbn [channel_start]; layout; unfold N; lia. }
  split; [exact H1 |]. split; [exact (proj1 (built_g_state0 Cy)) |].
  intros (_ & _ & Hfirst & _).
  destruct (Hfirst 1) as [Hgl _]; [lia |].
  rewrite H1 in Hgl. simpl in Hgl. injection Hgl as Hgl. lra.
Qed.

(** C5, as the code has it. The two constraint-bound vectors have [6N]
    entries; entry [i * N], the first of the block of channel [i], has both
    bounds equal to the [i]-th component of the state (x, y, psi, v, cte,
    epsi), for [i = 0..5]; the other [6(N-1)] entries have both bounds
    zero. *)
Theorem constraint_bounds_pin_block_starts `{Platform} (mpc : MPC)
    (state coeffs : Dvector) :
  length state = 6 →
  ∃ p, Solve_problem mpc state coeffs = Ok p
    ∧ length (ipopt.gl p) = 6 * N ∧ length (ipopt.gu p) = 6 * N
    ∧ (∀ i, i < 6 → ipopt.gl p !! (i * N) = state !! i
                    ∧ ipopt.gu p !! (i * N) = state !! i)
    ∧ (∀ j, j < 6 * N → j mod N ≠ 0 →
            ipopt.gl p !! j = Some 0%R ∧ ipopt.gu p !! j = Some 0%R).
Proof.
  intros Hs. pose proof N_bounds as HN.
  destruct (Solve_problem_spec mpc state coeffs) as (p & E & B); [lia |].
  destruct B. exists p. split; [done |].
  split; [unfold n_constraints in *; lia |].
  split; [unfold n_constraints in *; lia |]. split.
  - intros i Hi. destruct (channel_of_pos i Hi) as [k <-].
    rewrite <- channel_start_pos.
    rewrite (lookup_nth_in_range state) by lia. apply built_g_state0.
  - intros j Hj Hmod. apply built_g_zero0; [unfold n_constraints; lia |].
    intros k ->. apply Hmod. rewrite channel_start_pos.
    apply Nat.Div0.mod_mul.
Qed.

Lemma constraint_bounds_pin_block_starts_witness :
  let state := [1; 2; 3; 4; 5; 6]%R in
  length state = 6
  ∧ ∃ p, @Solve_problem (still_platform ipopt.success)
           (mk_MPC default_weights) state [0; 0; 0; 0]%R = Ok p
         ∧ ipopt.gl p !! (1 * N) = Some 2%R
         ∧ ipopt.gu p !! (1 * N) = Some 2%R.
Proof.
  intros state. split; [reflexivity |].
  destruct (@constraint_bounds_pin_block_starts
              (still_platform ipopt.success) (mk_MPC default_weights)
              state [0; 0; 0; 0]%R eq_refl) as (p & E & _ & _ & Hpin & _).
  exists p. split; [exact E |]. apply (Hpin 1). lia.
Defined.

(** ** C1: the status of the solver *)

(** [MPC::Solve] computes [ok] from the status and never reads it: what it
    returns is the same for every status. *)
Lemma Solve_actuations_status (ok : bool) (st : ipopt.status_type)
    (v : Dvector) :
  Solve_actuations ok {| ipopt.status := st; ipopt.x := v |}
  = Solve_actuations ok {| ipopt.status := ipopt.success; ipopt.x := v |}.
Proof. reflexivity. Qed.

(** What [MPC::Solve] extracts from a solver vector of [n_vars] entries:
    the first steering and throttle, and the positions of steps [1..N-1]. *)
Lemma Solve_actuations_spec (ok : bool) (solution : ipopt.solve_result) :
  length (ipopt.x solution) = n_vars →
  Solve_actuations ok solution
  = Ok {| d := nth delta_start (ipopt.x solution) 0%R;
          a := nth a_start (ipopt.x solution) 0%R;
          x_vals := map (λ t, nth (x_start + t) (ipopt.x solution) 0%R)
                        (seq 1 (N - 1));
          y_vals := map (λ t, nth (y_start + t) (ipopt.x solution) 0%R)
                        (seq 1 (N - 1)) |}.
Proof.
  intros Hx. pose proof N_bounds as HN. unfold Solve_actuations. cbv zeta.
  repeat run1.
  destruct (for_loop_invariant
    (λ t (vals : list R * list R),
       vals = (map (λ t, nth (x_start + t) (ipopt.x solution) 0%R)
                   (seq 1 (t - 1)),
               map (λ t, nth (y_start + t) (ipopt.x solution) 0%R)
                   (seq 1 (t - 1))))
    (λ t (vals : list R * list R),
       xt ← vget (ipopt.x solution) (x_start + t);
       yt ← vget (ipopt.x solution) (y_start + t);
       Ok (vals.1 ++ [xt], vals.2 ++ [yt]))
    (N - 1) 1 ([], [])) as (vals & -> & Hvals).
  - done.
  - intros t s Ht ->. repeat run1. eexists. split; [reflexivity |].
    cbn [fst snd]. replace (S t - 1) with (S (t - 1)) by lia.
    rewrite !seq_S, !map_app.
    by replace (1 + (t - 1)) with t by lia.
  - cbn [mbind outcome_bind]. rewrite Hvals. cbn [fst snd].
    by replace (1 + (N - 1) - 1) with (N - 1) by lia.
Qed.

(** C1 fails on the code. With a solver that gives up at its initial point
    with status [maxiter_exceeded], [MPC::Solve] on the state
    [(0, 0, 0, 10, 0, 0)] returns normally, with zero steering and throttle
    read from the solver's vector: the same value it returns when the status
    is [success]. *)
Theorem Solve_returns_on_solver_failure :
  let mpc := mk_MPC default_weights in
  let state := [0; 0; 0; 10; 0; 0]%R in
  let coeffs := [0; 0; 0; 0]%R in
  ∃ r, @Solve (still_platform ipopt.maxiter_exceeded) mpc state coeffs = Ok r
       ∧ @Solve (still_platform ipopt.success) mpc state coeffs = Ok r
       ∧ d r = 0%R ∧ a r = 0%R
       ∧ x_vals r = replicate 7 0%R ∧ y_vals r = replicate 7 0%R.
Proof.
  intros mpc state coeffs0. pose proof N_bounds as HN.
  destruct (@Solve_problem_spec (still_platform ipopt.maxiter_exceeded)
              mpc state coeffs0) as (p & E & B); [simpl; lia |].
  assert (E' : @Solve_problem (still_platform ipopt.success) mpc state coeffs0
               = Ok p) by exact E.
  destruct B.
  assert (Hd : ipopt.xi p !! delta_start = Some 0%R).
  { apply built_xi_zero0; [layout; lia |].
    intros []; cbn [channel_start]; layout; lia. }
  assert (Ha : ipopt.xi p !! a_start = Some 0%R).
  { apply built_xi_zero0; [layout; lia |].
    intros []; cbn [channel_start]; layout; lia. }
  assert (Hx : ∀ t, 1 ≤ t < N → ipopt.xi p !! (x_start + t) = Some 0%R).
  { intros t Ht. apply built_xi_zero0; [layout; lia |].
    intros []; cbn [channel_start]; layout; lia. }
  assert (Hy : ∀ t, 1 ≤ t < N → ipopt.xi p !! (y_start + t) = Some 0%R).
  { intros t Ht. apply built_xi_zero0; [layout; lia |].
    intros []; cbn [channel_start]; layout; lia. }
  unfold Solve. rewrite E, E'. cbn [mbind outcome_bind]. cbv zeta.
  cbn [ipopt_solve still_platform]. rewrite Solve_actuations_status.
  rewrite Solve_actuations_spec by done. cbn [ipopt.x].
  eexists. split; [reflexivity |]. split; [reflexivity |].
  cbn [d a x_vals y_vals].
  split; [by apply nth_lookup_Some |]. split; [by apply nth_lookup_Some |].
  unfold N in *. cbn [Nat.sub seq map replicate].
  split; repeat f_equal; apply nth_lookup_Some;
    solve [apply Hx; lia | apply Hy; lia].
Qed.

(** ** C7: the fitted polynomial at the origin *)

Lemma polyeval_tail_at_zero (c : Dvector) (count lo : nat) (acc : R) :
  1 ≤ lo →
  fold_left (λ result i, result + nth i c 0 * 0 ^ i)%R (seq lo count) acc
  = acc.
Proof.
  revert lo acc. induction count as [|n IH]; intros lo acc Hlo; [done |].
  simpl. rewrite pow_i by lia. rewrite Rmult_0_r, Rplus_0_r.
  apply IH. lia.
Qed.

Lemma polyeval_at_zero (c : Dvector) :
  1 ≤ length c → polyeval c 0 = nth 0 c 0%R.
Proof.
  intros Hc. unfold polyeval. destruct c as [|c0 rest]; [simpl in Hc; lia |].
  cbn [length seq fold_left].
  rewrite (polyeval_tail_at_zero (c0 :: rest) (length rest) 1) by lia.
  simpl. lra.
Qed.

(** What [telemetry_state] returns, when it returns. *)
Lemma telemetry_state_inv `{Platform} (j : telemetry) (latency : R)
    (state coeffs : Dvector) :
  telemetry_state j latency = Ok (state, coeffs) →
  ∃ c1, coeffs !! 1 = Some c1
    ∧ state = [0; 0; 0; tm_speed j + tm_throttle j * latency;
               polyeval coeffs 0; - atan c1]%R.
Proof.
  unfold telemetry_state, globalKinematic. cbv zeta.
  destruct (transform_waypoints _ _ _ _ _) as [pts|]; [| discriminate].
  cbn [mbind outcome_bind].
  destruct (polyfit _ _ _) as [cf|]; [| discriminate].
  cbn [mbind outcome_bind].
  destruct (vget cf 1) as [c1|] eqn:E1; [| discriminate].
  cbn [mbind outcome_bind]. intros [= <- <-].
  exists c1. split; [by apply vget_Ok | done].
Qed.

(** C7. For every coefficient vector with at least one entry,
    [polyeval(coeffs, 0)] is [coeffs[0]]; so the cross-track error that
    [onMessage] puts in the state vector is the constant term of the fitted
    polynomial. *)
Theorem polyeval_at_origin (coeffs : Dvector) :
  1 ≤ length coeffs →
  coeffs !! 0 = Some (polyeval coeffs 0)
  ∧ ∀ `{Platform} (j : telemetry) (latency : R) (state : Dvector),
      telemetry_state j latency = Ok (state, coeffs) →
      state !! 4 = coeffs !! 0.
Proof.
  intros Hc.
  assert (H0 : coeffs !! 0 = Some (polyeval coeffs 0)).
  { rewrite polyeval_at_zero by done. apply lookup_nth_in_range. lia. }
  split; [exact H0 |].
  intros P j latency state E.
  apply telemetry_state_inv in E as (c1 & _ & ->). by rewrite H0.
Qed.

Lemma polyeval_at_origin_witness :
  let coeffs := [3; 1; 4; 1]%R in
  1 ≤ length coeffs ∧ coeffs !! 0 = Some (polyeval coeffs 0).
Proof.
  intros coeffs. split; [simpl; lia |].
  apply (polyeval_at_origin coeffs). simpl. lia.
Defined.

(** ** C6: too few waypoints *)

(** With fewer points than [order + 1] the second assertion of [polyfit]
    fails, unless the first one has failed already. *)
Lemma polyfit_assertions_fail `{Platform} (xvals yvals : Dvector)
    (order : Z) :
  (Z.of_nat (length xvals) < order + 1)%Z →
  polyfit xvals yvals order
  = Abort (if length xvals =? length yvals
           then assert_order_in_range else assert_sizes_equal).
Proof.
  intros Hfew. unfold polyfit.
  destruct (length xvals =? length yvals); [| done].
  cbn [assert mbind outcome_bind].
  replace (order <=? Z.of_nat (length xvals) - 1)%Z with false
    by (symmetry; apply Z.leb_gt; lia).
  by rewrite andb_false_r.
Qed.

(** C6. With fewer waypoints than [order + 1], [polyfit] stops at one of its
    two assertions and returns no fit: at the second when the two vectors
    have the same size, at the first otherwise.  This covers two waypoints
    for the fit of order 3. *)
Theorem polyfit_insufficient_waypoints `{Platform} (xvals yvals : Dvector)
    (order : Z) :
  (Z.of_nat (length xvals) < order + 1)%Z →
  polyfit xvals yvals order
  = Abort (if length xvals =? length yvals
           then assert_order_in_range else assert_sizes_equal)
  ∧ ¬ is_Ok (polyfit xvals yvals order).
Proof.
  intros Hfew. rewrite polyfit_assertions_fail by done.
  split; [done |]. intros [fit Hfit]. discriminate.
Qed.

Lemma polyfit_insufficient_waypoints_witness :
  (Z.of_nat (length [0; 10]%R) < 3 + 1)%Z
  ∧ @polyfit (still_platform ipopt.success) [0; 10]%R [0; 1]%R 3
    = Abort assert_order_in_range.
Proof.
  split; [simpl; lia |].
  apply (@polyfit_insufficient_waypoints (still_platform ipopt.success)
           [0; 10]%R [0; 1]%R 3).
  simpl. lia.
Defined.

(** ** C8: the frame transform and its inverse *)

Lemma to_world_to_vehicle (px py psi wx wy : R) :
  let p := to_vehicle px py psi wx wy in
  to_world px py psi p.1 p.2 = (wx, wy).
Proof.
  unfold to_vehicle, to_world. cbn [fst snd].
  rewrite cos_neg, sin_neg.
  pose proof (sin2_cos2 psi) as Hsc. unfold Rsqr in Hsc.
  set (c := cos psi) in *. set (s := sin psi) in *.
  f_equal.
  - replace (((wx - px) * c - (wy - py) * - s) * c
             - ((wx - px) * - s + (wy - py) * c) * s + px)%R
      with ((wx - px) * (s * s + c * c) + px)%R by ring.
    rewrite Hsc. ring.
  - replace (((wx - px) * c - (wy - py) * - s) * s
             + ((wx - px) * - s + (wy - py) * c) * c + py)%R
      with ((wy - py) * (s * s + c * c) + py)%R by ring.
    rewrite Hsc. ring.
Qed.

(** The transform loop returns when [ptsy] has an entry for every entry of
    [ptsx], and then holds every waypoint in vehicle coordinates. *)
Lemma transform_waypoints_spec `{Platform} (ptsx ptsy : list R)
    (px py psi : R) :
  length ptsx ≤ length ptsy →
  ∃ pts, transform_waypoints ptsx ptsy px py psi = Ok pts
    ∧ length pts.1 = length ptsx ∧ length pts.2 = length ptsy
    ∧ ∀ i wx wy, ptsx !! i = Some wx → ptsy !! i = Some wy →
        pts.1 !! i = Some (to_vehicle px py psi wx wy).1
        ∧ pts.2 !! i = Some (to_vehicle px py psi wx wy).2.
Proof.
  intros Hlen. unfold transform_waypoints. rewrite Nat.sub_0_r.
  destruct (for_loop_invariant
    (λ t (pts : list R * list R),
       length pts.1 = length ptsx ∧ length pts.2 = length ptsy
       ∧ ∀ i wx wy, i < t → ptsx !! i = Some wx → ptsy !! i = Some wy →
           pts.1 !! i = Some (to_vehicle px py psi wx wy).1
           ∧ pts.2 !! i = Some (to_vehicle px py psi wx wy).2)
    (λ i (pts : list R * list R),
       wx ← vget ptsx i;
       wy ← vget ptsy i;
       let p := to_vehicle px py psi wx wy in
       ptsx_transform ← vset pts.1 i p.1;
       ptsy_transform ← vset pts.2 i p.2;
       Ok (ptsx_transform, ptsy_transform))
    (length ptsx) 0 (Dvector_new (length ptsx), Dvector_new (length ptsy)))
    as (pts & E & L1 & L2 & Hpts).
  - cbn [fst snd]. rewrite !Dvector_new_length.
    split; [done |]. split; [done |]. intros i wx wy Hi. lia.
  - intros t s Ht (L1 & L2 & Hs).
    rewrite (vget_in_range ptsx) by lia. rewrite (vget_in_range ptsy) by lia.
    cbn [mbind outcome_bind]. cbv zeta.
    rewrite !vset_in_range by lia. cbn [mbind outcome_bind].
    eexists. split; [reflexivity |]. cbn [fst snd].
    rewrite !length_insert. split; [done |]. split; [done |].
    intros i wx wy Hi Ex Ey. destruct (decide (i = t)) as [-> | Hne].
    + rewrite (nth_lookup_Some _ _ 0%R _ Ex), (nth_lookup_Some _ _ 0%R _ Ey).
      split; apply list_lookup_insert_eq; lia.
    + rewrite !list_lookup_insert_ne by done. apply Hs; [lia | done | done].
  - exists pts. split; [done |]. split; [done |]. split; [done |].
    intros i wx wy Ex Ey. apply Hpts; [| done | done].
    apply lookup_lt_Some in Ex. lia.
Qed.

(** C8. For every vehicle pose and every list of world-frame waypoints, the
    transform loop returns, and rotating each transformed waypoint by [psi]
    and translating it by [(px, py)] gives the waypoint back: an equality of
    real numbers. *)
Theorem frame_transform_round_trip `{Platform} (ptsx ptsy : list R)
    (px py psi : R) :
  length ptsx = length ptsy →
  ∃ tx ty, transform_waypoints ptsx ptsy px py psi = Ok (tx, ty)
    ∧ length tx = length ptsx ∧ length ty = length ptsy
    ∧ ∀ i wx wy, ptsx !! i = Some wx → ptsy !! i = Some wy →
        ∃ lx ly, tx !! i = Some lx ∧ ty !! i = Some ly
                 ∧ to_world px py psi lx ly = (wx, wy).
Proof.
  intros Hlen.
  destruct (transform_waypoints_spec ptsx ptsy px py psi)
    as ([tx ty] & E & L1 & L2 & Hpts); [lia |].
  exists tx, ty. split; [done |]. split; [done |]. split; [done |].
  intros i wx wy Ex Ey. destruct (Hpts i wx wy Ex Ey) as [Hx Hy].
  eexists _, _. split; [exact Hx |]. split; [exact Hy |].
  apply to_world_to_vehicle.
Qed.

Lemma frame_transform_round_trip_witness :
  let ptsx := [10; 20; 30; 40]%R in
  let ptsy := [1; 2; 3; 5]%R in
  length ptsx = length ptsy
  ∧ ∃ tx ty, @transform_waypoints (still_platform ipopt.success)
               ptsx ptsy 3 4 1 = Ok (tx, ty)
             ∧ length tx = 4.
Proof.
  intros ptsx ptsy. split; [reflexivity |].
  destruct (@frame_transform_round_trip (still_platform ipopt.success)
              ptsx ptsy 3 4 1 eq_refl)%R as (tx & ty & E & L & _).
  exists tx, ty. split; [exact E | exact L].
Defined.

(** ** The least-squares problem of [polyfit] *)

Lemma mget_in_range (A : list (list R)) (i j : nat) (row : list R) (r : R) :
  A !! i = Some row → row !! j = Some r → mget A i j = Ok r.
Proof. intros EA Er. unfold mget. rewrite EA. by apply vget_Ok. Qed.

Lemma mset_in_range (A : list (list R)) (i j : nat) (row : list R) (r : R) :
  A !! i = Some row → j < length row →
  mset A i j r = Ok (<[i := <[j := r]> row]> A).
Proof.
  intros EA Hj. unfold mset. rewrite EA. by rewrite vset_in_range.
Qed.

(** The inner loop of [polyfit] fills row [j] with the powers of [xj]. *)
Lemma vandermonde_row_loop (xvals : list R) (j : nat) (xj : R)
    (o : nat) (A : list (list R)) (row0 : list R) :
  xvals !! j = Some xj → A !! j = Some row0 →
  length row0 = S o → row0 !! 0 = Some 1%R →
  ∃ A' row,
    for_loop 0 o (λ i A, prev ← mget A j i;
                         xj ← vget xvals j;
                         mset A j (i + 1) (prev * xj)) A = Ok A'
    ∧ A' = <[j := row]> A ∧ length row = S o
    ∧ ∀ i, i < S o → row !! i = Some (xj ^ i)%R.
Proof.
  intros Ex EA Hlen H0.
  destruct (for_loop_invariant
    (λ i A', ∃ row, A' = <[j := row]> A ∧ length row = S o
                    ∧ ∀ i', i' ≤ i → row !! i' = Some (xj ^ i')%R)
    (λ i A, prev ← mget A j i;
            xj ← vget xvals j;
            mset A j (i + 1) (prev * xj)) o 0 A)
    as (A' & E & row & -> & L & Hrow).
  - exists row0. split; [by rewrite list_insert_id |]. split; [done |].
    intros i' Hi'. replace i' with 0 by lia. done.
  - intros i s Hi (row & -> & L & Hrow).
    assert (Hj : j < length A) by (by eapply lookup_lt_Some).
    assert (Erow : <[j:=row]> A !! j = Some row)
      by (by apply list_lookup_insert_eq).
    rewrite (mget_in_range _ j i row (xj ^ i)%R Erow) by (apply Hrow; lia).
    cbn [mbind outcome_bind].
    rewrite (proj2 (vget_Ok _ _ _) Ex). cbn [mbind outcome_bind].
    rewrite (mset_in_range _ j (i + 1) row _ Erow) by lia.
    eexists. split; [reflexivity |].
    exists (<[i + 1 := (xj ^ i * xj)%R]> row).
    split; [by rewrite list_insert_insert_eq |].
    split; [by rewrite length_insert |].
    intros i' Hi'. destruct (decide (i' = i + 1)) as [-> | Hne].
    + rewrite list_lookup_insert_eq by lia. f_equal.
      replace (i + 1) with (S i) by lia. simpl. ring.
    + rewrite list_lookup_insert_ne by done. apply Hrow. lia.
  - exists (<[j:=row]> A), row. split; [done |]. split; [done |].
    split; [done |]. intros i Hi. apply Hrow. lia.
Qed.

(** [polyfit] returns when both assertions hold, and then it has asked the
    least-squares solver for the Vandermonde matrix of [xvals]: row [j] holds
    the powers [0..order] of [xvals[j]]. *)
Lemma polyfit_spec `{Platform} (xvals yvals : Dvector) (order : Z) :
  length xvals = length yvals →
  (1 ≤ order ≤ Z.of_nat (length xvals) - 1)%Z →
  ∃ A, polyfit xvals yvals order = Ok (householderQr_solve A yvals)
    ∧ length A = length xvals
    ∧ ∀ j xj, xvals !! j = Some xj →
        ∃ row, A !! j = Some row ∧ length row = Z.to_nat (order + 1)
               ∧ ∀ i, i < length row → row !! i = Some (xj ^ i)%R.
Proof.
  intros Hlen Hord. unfold polyfit.
  rewrite (proj2 (Nat.eqb_eq _ _) Hlen). cbn [assert mbind outcome_bind].
  replace (order >=? 1)%Z with true by (symmetry; rewrite Z.geb_leb; lia).
  replace (order <=? Z.of_nat (length xvals) - 1)%Z with true
    by (symmetry; apply Z.leb_le; lia).
  cbn [andb assert mbind outcome_bind]. cbv zeta. rewrite !Nat.sub_0_r.
  set (n := length xvals). set (o := Z.to_nat order).
  replace (Z.to_nat (order + 1)) with (S o) by lia.
  destruct (for_loop_invariant
    (λ t (A : list (list R)),
       length A = n
       ∧ (∀ j row, A !! j = Some row → length row = S o)
       ∧ ∀ j, j < t → ∃ row, A !! j = Some row ∧ row !! 0 = Some 1%R)
    (λ i A, mset A i 0 1) n 0 (Matrix_new n (S o)))
    as (A1 & -> & L1 & D1 & C1).
  - unfold Matrix_new. split; [by rewrite length_replicate |]. split.
    + intros j row Ej. apply lookup_replicate in Ej as [-> _].
      by rewrite Dvector_new_length.
    + intros j Hj. lia.
  - intros t A Ht (L & D & C).
    destruct (lookup_lt_is_Some_2 A t) as [row Erow]; [lia |].
    pose proof (D t row Erow) as Lrow.
    rewrite (mset_in_range A t 0 row 1%R Erow) by lia.
    eexists. split; [reflexivity |].
    split; [by rewrite length_insert |]. split.
    + intros j row' Ej. destruct (decide (j = t)) as [-> | Hne].
      * rewrite list_lookup_insert_eq in Ej by lia. injection Ej as <-.
        by rewrite length_insert.
      * rewrite list_lookup_insert_ne in Ej by done. by eapply D.
    + intros j Hj. destruct (decide (j = t)) as [-> | Hne].
      * eexists. split; [apply list_lookup_insert_eq; lia |].
        apply list_lookup_insert_eq. lia.
      * rewrite list_lookup_insert_ne by done. apply C. lia.
  - cbn [mbind outcome_bind]. replace (0 + n) with n in C1 by lia.
    destruct (for_loop_invariant
      (λ t (A : list (list R)),
         length A = n
         ∧ (∀ j row, A !! j = Some row → length row = S o)
         ∧ (∀ j, j < n → ∃ row, A !! j = Some row ∧ row !! 0 = Some 1%R)
         ∧ ∀ j xj, j < t → xvals !! j = Some xj →
             ∃ row, A !! j = Some row
                    ∧ ∀ i, i < S o → row !! i = Some (xj ^ i)%R)
      (λ j A, for_loop 0 o (λ i A, prev ← mget A j i;
                                   xj ← vget xvals j;
                                   mset A j (i + 1) (prev * xj)) A)
      n 0 A1) as (A2 & -> & L2 & D2 & _ & V2).
    + split; [done |]. split; [done |]. split; [done |].
      intros j xj Hj. lia.
    + intros t A Ht (L & D & C & V).
      destruct (C t) as (row0 & Erow0 & H0); [lia |].
      destruct (lookup_lt_is_Some_2 xvals t) as [xt Ext]; [fold n; lia |].
      destruct (vandermonde_row_loop xvals t xt o A row0)
        as (A' & row & E & -> & Lrow & Hrow);
        [done | done | by eapply D | done |].
      exists (<[t:=row]> A). split; [done |].
      split; [by rewrite length_insert |]. split; [| split].
      * intros j row' Ej. destruct (decide (j = t)) as [-> | Hne].
        -- rewrite list_lookup_insert_eq in Ej by lia. by injection Ej as <-.
        -- rewrite list_lookup_insert_ne in Ej by done. by eapply D.
      * intros j Hj. destruct (decide (j = t)) as [-> | Hne].
        -- exists row. split; [apply list_lookup_insert_eq; lia |].
           apply (Hrow 0). lia.
        -- rewrite list_lookup_insert_ne by done. by apply C.
      * intros j xj Hj Exj. destruct (decide (j = t)) as [-> | Hne].
        -- exists row. split; [apply list_lookup_insert_eq; lia |].
           replace xj with xt by congruence. done.
        -- rewrite list_lookup_insert_ne by done. apply V; [lia | done].
    + cbn [mbind outcome_bind]. exists A2. split; [done |].
      split; [done |]. intros j xj Exj.
      destruct (V2 j xj) as (row & Erow & Hrow); [| done |].
      { apply lookup_lt_Some in Exj. fold n in Exj. lia. }
      exists row. split; [done |]. rewrite (D2 j row Erow).
      split; [done | exact Hrow].
Qed.

(** ** C10: the state vector of a control cycle *)

(** A telemetry event with as many [ptsy] as [ptsx], at least four of them,
    reaches [mpc.Solve], when the least-squares solver returns at least two
    coefficients. *)
Lemma telemetry_state_returns `{Platform} (j : telemetry) (latency : R) :
  length (tm_ptsx j) = length (tm_ptsy j) → 4 ≤ length (tm_ptsx j) →
  (∀ A b, 2 ≤ length (householderQr_solve A b)) →
  is_Ok (telemetry_state j latency).
Proof.
  intros Hlen H4 Hqr. unfold telemetry_state, globalKinematic. cbv zeta.
  destruct (transform_waypoints_spec (tm_ptsx j) (tm_ptsy j)
              (tm_x j + tm_speed j * cos (tm_psi j) * latency)
              (tm_y j + tm_speed j * sin (tm_psi j) * latency)
              (tm_psi j + tm_speed j / Lf * - tm_steering_angle j * latency))
    as (pts & -> & L1 & L2 & _); [lia |].
  cbn [mbind outcome_bind].
  destruct (polyfit_spec pts.1 pts.2 3) as (A & -> & _); [lia | lia |].
  cbn [mbind outcome_bind].
  rewrite vget_in_range by (specialize (Hqr A pts.2); lia).
  cbn [mbind outcome_bind]. by eexists.
Qed.

(** C10. Whenever [onMessage] reaches [mpc.Solve], the state vector it
    passes is [(0, 0, 0, v, cte, epsi)]: position and heading are zero, [v] is
    the speed after latency compensation, [cte] the fitted polynomial at 0
    and [epsi] minus the arctangent of its linear coefficient.  The problem
    [MPC::Solve] builds from it pins x, y and psi of the initial state to
    zero, in the initial guess and in both constraint bounds. *)
Theorem state_vector_at_origin `{Platform} (mpc : MPC) (j : telemetry)
    (latency : R) (state coeffs : Dvector) :
  telemetry_state j latency = Ok (state, coeffs) →
  state !! 0 = Some 0%R ∧ state !! 1 = Some 0%R ∧ state !! 2 = Some 0%R
  ∧ state !! 3 = Some (tm_speed j + tm_throttle j * latency)%R
  ∧ state !! 4 = Some (polyeval coeffs 0)
  ∧ (∃ c1, coeffs !! 1 = Some c1 ∧ state !! 5 = Some (- atan c1)%R)
  ∧ length state = 6
  ∧ ∃ p, Solve_problem mpc state coeffs = Ok p
    ∧ ipopt.xi p !! x_start = Some 0%R
    ∧ ipopt.xi p !! y_start = Some 0%R
    ∧ ipopt.xi p !! psi_start = Some 0%R
    ∧ ipopt.gl p !! x_start = Some 0%R ∧ ipopt.gu p !! x_start = Some 0%R
    ∧ ipopt.gl p !! y_start = Some 0%R ∧ ipopt.gu p !! y_start = Some 0%R
    ∧ ipopt.gl p !! psi_start = Some 0%R
    ∧ ipopt.gu p !! psi_start = Some 0%R.
Proof.
  intros E. apply telemetry_state_inv in E as (c1 & Ec1 & ->).
  repeat (split; [done |]).
  split; [by exists c1 |]. split; [done |].
  destruct (Solve_problem_spec mpc
              [0; 0; 0; tm_speed j + tm_throttle j * latency;
               polyeval coeffs 0; - atan c1]%R coeffs) as (p & Ep & B);
    [simpl; lia |].
  destruct B. exists p. split; [done |].
  split; [exact (built_xi_state0 Cx) |].
  split; [exact (built_xi_state0 Cy) |].
  split; [exact (built_xi_state0 Cpsi) |].
  split; [exact (proj1 (built_g_state0 Cx)) |].
  split; [exact (proj2 (built_g_state0 Cx)) |].
  split; [exact (proj1 (built_g_state0 Cy)) |].
  split; [exact (proj2 (built_g_state0 Cy)) |].
  split; [exact (proj1 (built_g_state0 Cpsi)) |].
  exact (proj2 (built_g_state0 Cpsi)).
Qed.

Lemma state_vector_at_origin_witness :
  ∃ state coeffs,
    @telemetry_state (still_platform ipopt.success) sample_telemetry 0.1
    = Ok (state, coeffs)
    ∧ state !! 0 = Some 0%R ∧ state !! 1 = Some 0%R ∧ state !! 2 = Some 0%R.
Proof.
  eexists _, _. split; [reflexivity |].
  destruct (@state_vector_at_origin (still_platform ipopt.success)
              (mk_MPC default_weights) sample_telemetry 0.1%R _ _ eq_refl)
    as (H0 & H1 & H2 & _).
  split; [exact H0 |]. split; [exact H1 | exact H2].
Defined.

(** ** Further facts about the solve cycle *)

(** The last option line asks Ipopt for a CPU-time limit of 0.05 seconds. *)
Lemma solver_options_cpu_time :
  solver_options
  = (("Integer print_level  0" ++ newline
      ++ "Sparse  true        forward" ++ newline
      ++ "Sparse  true        reverse" ++ newline)
     ++ "Numeric max_cpu_time          0.05" ++ newline)%string.
Proof. reflexivity. Qed.

(** [MPC::Solve] returns whenever the state has its six entries and the
    solver answers with a vector of [n_vars] entries; the steering and the
    throttle it returns are entries [delta_start] and [a_start] of that
    vector. *)
Lemma Solve_returns `{Platform} (mpc : MPC) (state coeffs : Dvector) :
  6 ≤ length state →
  (∀ p, length (ipopt.x (ipopt_solve p)) = n_vars) →
  ∃ p r, Solve_problem mpc state coeffs = Ok p
    ∧ Solve mpc state coeffs = Ok r
    ∧ ipopt.x (ipopt_solve p) !! delta_start = Some (d r)
    ∧ ipopt.x (ipopt_solve p) !! a_start = Some (a r)
    ∧ length (x_vals r) = N - 1 ∧ length (y_vals r) = N - 1.
Proof.
  intros Hs Hx. pose proof N_bounds as HN.
  destruct (Solve_problem_spec mpc state coeffs Hs) as (p & E & _).
  exists p. unfold Solve. rewrite E. cbn [mbind outcome_bind]. cbv zeta.
  rewrite Solve_actuations_spec by done.
  eexists. split; [done |]. split; [reflexivity |]. cbn [d a x_vals y_vals].
  rewrite !length_map, !length_seq.
  split; [apply lookup_nth_in_range; rewrite Hx; layout; lia |].
  split; [apply lookup_nth_in_range; rewrite Hx; layout; lia | done].
Qed.

(** X21. A telemetry event with fewer than four waypoints never reaches the
    solver: the cycle stops at the second assertion of [polyfit]. *)
Lemma telemetry_state_too_few_waypoints `{Platform} (j : telemetry)
    (latency : R) :
  length (tm_ptsx j) = length (tm_ptsy j) → length (tm_ptsx j) < 4 →
  telemetry_state j latency = Abort assert_order_in_range.
Proof.
  intros Hlen Hfew. unfold telemetry_state, globalKinematic. cbv zeta.
  destruct (transform_waypoints_spec (tm_ptsx j) (tm_ptsy j)
              (tm_x j + tm_speed j * cos (tm_psi j) * latency)
              (tm_y j + tm_speed j * sin (tm_psi j) * latency)
              (tm_psi j + tm_speed j / Lf * - tm_steering_angle j * latency))
    as (pts & -> & L1 & L2 & _); [lia |].
  cbn [mbind outcome_bind].
  rewrite polyfit_assertions_fail by lia.
  rewrite (proj2 (Nat.eqb_eq _ _)) by lia. done.
Qed.

(** ** Messages: [hasData] and the dispatch of [onMessage] *)

Lemma starts_with_prefix (pat s : list Ascii.ascii) :
  starts_with pat s = true ↔ pat `prefix_of` s.
Proof.
  revert s. induction pat as [|p pat IH]; intros s.
  - split; [intros _; apply prefix_nil | done].
  - destruct s as [|c s]; simpl.
    + split; [done |]. intros [k Hk]. discriminate.
    + rewrite andb_true_iff, Ascii.eqb_eq, IH. split.
      * intros [-> Hp]. by apply prefix_cons.
      * intros [k Hk]. injection Hk as -> ->. split; [done |].
        by exists k.
Qed.

Lemma starts_with_false (pat s : list Ascii.ascii) :
  starts_with pat s = false ↔ ¬ pat `prefix_of` s.
Proof.
  rewrite <- starts_with_prefix. by destruct (starts_with pat s).
Qed.

(** [find]: the position found is the first occurrence; [npos] means no
    occurrence. *)
Lemma find_from_spec (pat s : list Ascii.ascii) (pos : nat) :
  match find_from pat s pos with
  | Some i => ∃ j, i = pos + j ∧ j ≤ length s ∧ pat `prefix_of` drop j s
                   ∧ ∀ j', j' < j → ¬ pat `prefix_of` drop j' s
  | None => ∀ j, ¬ pat `prefix_of` drop j s
  end.
Proof.
  revert pos. induction s as [|c s IH]; intros pos; simpl.
  - destruct (starts_with pat []) eqn:E.
    + exists 0. rewrite Nat.add_0_r. apply starts_with_prefix in E.
      split; [done |]. split; [done |]. split; [done |]. intros j' Hj'. lia.
    + apply starts_with_false in E. intros j. by rewrite drop_nil.
  - destruct (starts_with pat (c :: s)) eqn:E.
    + exists 0. rewrite Nat.add_0_r. apply starts_with_prefix in E.
      split; [done |]. split; [lia |]. split; [done |]. intros j' Hj'. lia.
    + apply starts_with_false in E. specialize (IH (S pos)).
      destruct (find_from pat s (S pos)) as [i|].
      * destruct IH as (j & -> & Hj & Hp & Hfirst). exists (S j).
        split; [lia |]. split; [lia |]. split; [done |].
        intros [|j'] Hj'; [done |]. apply Hfirst. lia.
      * intros [|j]; [done | apply IH].
Qed.

(** [rfind]: the position found is the last occurrence. *)
Lemma rfind_from_spec (pat s : list Ascii.ascii) (pos : nat) :
  match rfind_from pat s pos with
  | Some i => ∃ j, i = pos + j ∧ j ≤ length s ∧ pat `prefix_of` drop j s
                   ∧ ∀ j', j < j' ≤ length s → ¬ pat `prefix_of` drop j' s
  | None => ∀ j, j ≤ length s → ¬ pat `prefix_of` drop j s
  end.
Proof.
  revert pos. induction s as [|c s IH]; intros pos; simpl.
  - destruct (starts_with pat []) eqn:E.
    + exists 0. rewrite Nat.add_0_r. apply starts_with_prefix in E.
      split; [done |]. split; [done |]. split; [done |]. intros j' Hj'. lia.
    + apply starts_with_false in E. intros j _. by rewrite drop_nil.
  - specialize (IH (S pos)).
    destruct (rfind_from pat s (S pos)) as [i|].
    + destruct IH as (j & -> & Hj & Hp & Hlast). exists (S j).
      split; [lia |]. split; [lia |]. split; [done |].
      intros [|j'] Hj'; [lia |]. apply Hlast. lia.
    + destruct (starts_with pat (c :: s)) eqn:E.
      * exists 0. rewrite Nat.add_0_r. apply starts_with_prefix in E.
        split; [done |]. split; [lia |]. split; [done |].
        intros [|j'] Hj'; [lia |]. apply IH. lia.
      * apply starts_with_false in E.
        intros [|j] Hj; [done |]. apply IH. lia.
Qed.

(** [find_first_of] with the one-character set [[c]]: the position found is
    the first [c]. *)
Lemma find_first_of_from_spec (c : Ascii.ascii) (s : list Ascii.ascii)
    (pos : nat) :
  match find_first_of_from [c] s pos with
  | Some i => ∃ j, i = pos + j ∧ s !! j = Some c
                   ∧ ∀ j', j' < j → s !! j' ≠ Some c
  | None => ∀ j, s !! j ≠ Some c
  end.
Proof.
  revert pos. induction s as [|c' s IH]; intros pos; simpl.
  - intros j. done.
  - rewrite orb_false_r. destruct (Ascii.eqb c' c) eqn:E.
    + apply Ascii.eqb_eq in E as ->. exists 0. rewrite Nat.add_0_r.
      split; [done |]. split; [done |]. intros j' Hj'. lia.
    + apply Ascii.eqb_neq in E. specialize (IH (S pos)).
      destruct (find_first_of_from [c] s (S pos)) as [i|].
      * destruct IH as (j & -> & Hj & Hfirst). exists (S j).
        split; [lia |]. split; [done |].
        intros [|j'] Hj'; [simpl; congruence | apply Hfirst; lia].
      * intros [|j]; [simpl; congruence | apply IH].
Qed.

Lemma hasData_cases (s : list Ascii.ascii) :
  hasData s
  = match find (str "null") s with
    | Some _ => Ok []
    | None =>
        match find_first_of (str "[") s, rfind (str "}]") s with
        | Some b1, Some b2 => substr s b1 (size_t_sub_add b2 b1 2)
        | _, _ => Ok []
        end
    end.
Proof.
  unfold hasData.
  by destruct (find (str "null") s), (find_first_of (str "[") s),
             (rfind (str "}]") s).
Qed.

Lemma prefix_of_drop_take (pat l : list Ascii.ascii) (j n : nat) :
  pat `prefix_of` drop j (take n l) → pat `prefix_of` drop j l.
Proof.
  intros Hp. rewrite <- (take_drop n l) at 1. rewrite drop_app.
  by apply prefix_app_r.
Qed.

(** X1. A message that holds the text [null] anywhere has no data:
    [hasData] returns the empty string, whatever brackets it has. *)
Theorem hasData_null (s : list Ascii.ascii) (j : nat) :
  str "null" `prefix_of` drop j s → hasData s = Ok [].
Proof.
  intros Hnull. rewrite hasData_cases.
  pose proof (find_from_spec (str "null") s 0) as Hfind. unfold find.
  destruct (find_from (str "null") s 0); [done |].
  by destruct (Hfind j).
Qed.

Lemma hasData_null_witness :
  str "null" `prefix_of` drop 14 (str "42[telemetry,{null}]")
  ∧ hasData (str "42[telemetry,{null}]") = Ok [].
Proof.
  assert (H : str "null" `prefix_of` drop 14 (str "42[telemetry,{null}]"))
    by (by exists (str "}]")).
  split; [exact H |]. exact (hasData_null _ 14 H).
Defined.

Ltac empty_result :=
  exists []; split; [reflexivity | intros Hne; by destruct Hne].

(** X2. [hasData] never fails: the position it gives to [substr] is inside
    the string.  A result that is not empty is a piece of the message, begins
    with the first [[] of the message and holds no [null]. *)
Theorem hasData_payload (s : list Ascii.ascii) :
  ∃ r, hasData s = Ok r
    ∧ (r ≠ [] →
       (∃ b1 rest, find_first_of (str "[") s = Some b1
                   ∧ r = str "[" ++ rest
                   ∧ ∃ post, drop b1 s = r ++ post)
       ∧ ∀ j, ¬ str "null" `prefix_of` drop j r).
Proof.
  rewrite hasData_cases.
  pose proof (find_from_spec (str "null") s 0) as Hnull. unfold find.
  destruct (find_from (str "null") s 0) as [i|]; [empty_result |].
  pose proof (find_first_of_from_spec (Ascii.ascii_of_nat 91) s 0) as Hb1.
  unfold find_first_of. change (str "[") with [Ascii.ascii_of_nat 91].
  destruct (find_first_of_from [Ascii.ascii_of_nat 91] s 0) as [b1|];
    [| empty_result].
  destruct Hb1 as (j1 & E & Hs1 & _). simpl in E. subst b1.
  destruct (rfind (str "}]") s) as [b2|]; [| empty_result].
  unfold substr. pose proof (lookup_lt_Some _ _ _ Hs1) as Hlt.
  rewrite decide_True by lia.
  eexists. split; [reflexivity |]. intros Hne. split.
  - exists j1. rewrite (drop_S _ _ _ Hs1) in *.
    destruct (Z.to_nat _) as [|n]; [done |]. simpl.
    eexists. split; [done |]. split; [done |].
    exists (drop n (drop (S j1) s)). by rewrite take_drop.
  - intros j Hj. apply prefix_of_drop_take in Hj.
    rewrite drop_drop in Hj. by apply (Hnull (j1 + j)).
Qed.

(** The count [b2 - b1 + 2] of [hasData], without and with wrap-around. *)
Lemma size_t_sub_add_le (b1 b2 : nat) :
  (Z.of_nat (b2 + 2) < 2 ^ 64)%Z → b1 ≤ b2 + 2 →
  size_t_sub_add b2 b1 2 = Z.of_nat (b2 + 2 - b1).
Proof.
  intros Hb2 Hle. unfold size_t_sub_add.
  change (2 ^ 64)%Z with 18446744073709551616%Z in *.
  rewrite Z.mod_small; lia.
Qed.

Lemma size_t_sub_add_gt (b1 b2 : nat) :
  (Z.of_nat b1 < 2 ^ 64)%Z → b2 + 2 < b1 →
  size_t_sub_add b2 b1 2 = (2 ^ 64 - Z.of_nat (b1 - (b2 + 2)))%Z.
Proof.
  intros Hb1 Hgt. unfold size_t_sub_add.
  change (2 ^ 64)%Z with 18446744073709551616%Z in *.
  rewrite <- (Z_mod_plus_full _ 1). rewrite Z.mod_small; lia.
Qed.

(** X3. When the first [[] comes before the last [}]] and the message has
    no [null], [hasData] returns the text from that [[] to that [}]], both
    included.  The size of the message fits [size_t]. *)
Theorem hasData_between_brackets (s : list Ascii.ascii) (b1 b2 : nat) :
  (Z.of_nat (length s) < 2 ^ 64)%Z →
  find (str "null") s = None →
  find_first_of (str "[") s = Some b1 →
  rfind (str "}]") s = Some b2 →
  b1 ≤ b2 →
  hasData s
  = Ok (str "[" ++ take (b2 - b1 - 1) (drop (S b1) s) ++ str "}]").
Proof.
  intros Hsize Hnull Hb1 Hb2 Hle. rewrite hasData_cases, Hnull, Hb1, Hb2.
  pose proof (find_first_of_from_spec (Ascii.ascii_of_nat 91) s 0) as H1.
  unfold find_first_of in Hb1. change (str "[") with [Ascii.ascii_of_nat 91] in Hb1.
  rewrite Hb1 in H1. destruct H1 as (j1 & E1 & Hs1 & _).
  simpl in E1. subst j1.
  pose proof (rfind_from_spec (str "}]") s 0) as H2.
  unfold rfind in Hb2. rewrite Hb2 in H2.
  destruct H2 as (j2 & E2 & Hj2 & [k Hk] & _). simpl in E2. subst j2.
  pose proof (lookup_lt_Some _ _ _ Hs1) as Hlt1.
  assert (Hlen2 : b2 + 2 ≤ length s).
  { apply (f_equal length) in Hk. rewrite length_drop, length_app in Hk.
    simpl in Hk. lia. }
  assert (Hne : b1 ≠ b2).
  { intros ->. apply (f_equal (λ l, l !! 0)) in Hk.
    rewrite lookup_drop, Nat.add_0_r, Hs1 in Hk. discriminate. }
  unfold substr. rewrite decide_True by lia. f_equal.
  rewrite size_t_sub_add_le by lia.
  replace (Z.to_nat _) with (1 + (b2 - b1 - 1 + 2)) by lia.
  rewrite (drop_S _ _ _ Hs1). cbn [Nat.add take]. change (str "[") with [Ascii.ascii_of_nat 91].
  cbn [app]. f_equal.
  rewrite <- (take_drop (b2 - b1 - 1) (drop (S b1) s)) at 1.
  rewrite drop_drop. replace (S b1 + (b2 - b1 - 1)) with b2 by lia.
  rewrite Hk. rewrite take_app_add'.
  - by rewrite (take_app_length' (str "}]") k 2).
  - rewrite length_take, length_drop. lia.
Qed.

Lemma hasData_between_brackets_witness :
  hasData (str "42[telemetry,{x:1}]") = Ok (str "[telemetry,{x:1}]").
Proof.
  apply (hasData_between_brackets (str "42[telemetry,{x:1}]") 2 17);
    [simpl; lia | reflexivity | reflexivity | reflexivity | lia].
Defined.

(** X4. When the last [}]] lies before the first [[], the count
    [b2 - b1 + 2] wraps around in [size_t]: [hasData] returns the whole rest
    of the message from that [[], which does not end with [}]]; it returns
    the empty string only when the [[] follows the [}]] at once. *)
Theorem hasData_bracket_after (s : list Ascii.ascii) (b1 b2 : nat) :
  (Z.of_nat (length s) < 2 ^ 64)%Z →
  find (str "null") s = None →
  find_first_of (str "[") s = Some b1 →
  rfind (str "}]") s = Some b2 →
  b2 < b1 →
  hasData s = Ok (if b1 =? b2 + 2 then [] else drop b1 s)
  ∧ b2 + 2 ≤ b1.
Proof.
  intros Hsize Hnull Hb1 Hb2 Hlt. rewrite hasData_cases, Hnull, Hb1, Hb2.
  pose proof (find_first_of_from_spec (Ascii.ascii_of_nat 91) s 0) as H1.
  unfold find_first_of in Hb1. change (str "[") with [Ascii.ascii_of_nat 91] in Hb1.
  rewrite Hb1 in H1. destruct H1 as (j1 & E1 & Hs1 & _).
  simpl in E1. subst j1.
  pose proof (rfind_from_spec (str "}]") s 0) as H2.
  unfold rfind in Hb2. rewrite Hb2 in H2.
  destruct H2 as (j2 & E2 & Hj2 & [k Hk] & _). simpl in E2. subst j2.
  pose proof (lookup_lt_Some _ _ _ Hs1) as Hlt1.
  assert (Hne : b1 ≠ b2 + 1).
  { intros ->. apply (f_equal (λ l, l !! 1)) in Hk.
    rewrite lookup_drop, Hs1 in Hk. discriminate. }
  split; [| lia].
  unfold substr. rewrite decide_True by lia. f_equal.
  destruct (Nat.eqb_spec b1 (b2 + 2)) as [-> | Hne2].
  - rewrite size_t_sub_add_le by lia.
    replace (Z.to_nat _) with 0 by lia. done.
  - rewrite size_t_sub_add_gt by lia.
    replace (Z.to_nat _) with (length s - b1) by lia.
    apply take_ge. by rewrite length_drop.
Qed.

Lemma hasData_bracket_after_witness :
  hasData (str "}] then [1,2") = Ok (str "[1,2").
Proof.
  apply (hasData_bracket_after (str "}] then [1,2") 8 0);
    [simpl; lia | reflexivity | reflexivity | reflexivity | lia].
Defined.

Lemma guard_42 (sdata : list Ascii.ascii) :
  (2 <? length sdata) && char_is sdata 0 (Ascii.ascii_of_nat 52)
  && char_is sdata 1 (Ascii.ascii_of_nat 50) = true
  ↔ 2 < length sdata ∧ str "42" `prefix_of` sdata.
Proof.
  rewrite !andb_true_iff, Nat.ltb_lt. unfold char_is.
  destruct sdata as [|c0 [|c1 rest]]; simpl.
  - split; [intros [[_ ?] _]; done | intros [? _]; lia].
  - split; [intros [[_ _] ?]; done | intros [? _]; lia].
  - rewrite !Ascii.eqb_eq. split.
    + intros [[Hlen ->] ->]. split; [done |]. by exists rest.
    + intros [Hlen [k Hk]]. injection Hk as -> -> _. done.
Qed.

(** X5. What [onMessage] hands to the JSON parser: the message began with
    [42], and the text parsed is the result of [hasData], which begins with
    [[] and holds no [null]. *)
Theorem onMessage_route_parse (sdata p : list Ascii.ascii) :
  onMessage_route sdata = Ok (route_parse p) →
  str "42" `prefix_of` sdata ∧ hasData sdata = Ok p
  ∧ (∃ rest, p = str "[" ++ rest)
  ∧ ∀ j, ¬ str "null" `prefix_of` drop j p.
Proof.
  unfold onMessage_route.
  destruct (_ && _ && _) eqn:G; [| discriminate].
  apply guard_42 in G as [_ H42].
  destruct (hasData_payload sdata) as (r & -> & Hr).
  cbn [mbind outcome_bind]. destruct r as [|c r]; [discriminate |].
  intros [= <-]. destruct Hr as [(b1 & rest & _ & Hrest & _) Hnull]; [done |].
  split; [done |]. split; [done |]. split; [by exists rest | done].
Qed.

Lemma onMessage_route_parse_witness :
  onMessage_route (str "42[telemetry,{x:1}]")
  = Ok (route_parse (str "[telemetry,{x:1}]"))
  ∧ hasData (str "42[telemetry,{x:1}]") = Ok (str "[telemetry,{x:1}]").
Proof.
  split; [reflexivity |].
  apply (onMessage_route_parse (str "42[telemetry,{x:1}]")
           (str "[telemetry,{x:1}]")).
  reflexivity.
Defined.




(** ** Start-up: the weights *)

(** The loop rule for a loop that aborts: when the invariant holds up to
    iteration [k] and iteration [k] aborts, so does the loop. *)
Lemma for_loop_aborts {St : Type} (Inv : nat → St → Prop)
    (body : nat → St → outcome St) (f : fault) (k count lo : nat) (s : St) :
  lo ≤ k < lo + count →
  Inv lo s →
  (∀ t s, lo ≤ t < k → Inv t s → ∃ s', body t s = Ok s' ∧ Inv (S t) s') →
  (∀ s, Inv k s → body k s = Abort f) →
  for_loop lo count body s = Abort f.
Proof.
  revert lo s. induction count as [|c IH]; intros lo s Hk H0 Hstep Hab.
  - lia.
  - simpl. destruct (decide (lo = k)) as [-> | Hne].
    + by rewrite Hab.
    + destruct (Hstep lo s) as (s1 & -> & H1); [lia | done |].
      cbn [mbind outcome_bind]. apply IH; [lia | done | | done].
      intros t s' Ht. apply Hstep. lia.
Qed.

(** One iteration of the override loop of [main]. *)
Lemma main_weights_step (atof : list Ascii.ascii → R)
    (argv : list (list Ascii.ascii)) (t : nat) (w : list R) :
  1 ≤ t < length argv → t ≤ 7 → length w = 7 →
  match argv !! t with
  | Some arg => vset w (t - 1) (atof arg)
  | None => Abort index_out_of_range
  end = Ok (<[t - 1 := atof (nth t argv [])]> w).
Proof.
  intros Ht H7 Hw.
  destruct (argv !! t) as [arg|] eqn:E.
  - rewrite (nth_lookup_Some _ _ [] _ E). apply vset_in_range. lia.
  - apply lookup_ge_None in E. lia.
Qed.

(** X8. With at most seven arguments after the program name, [main] starts
    from the seven default weights and replaces weight [i] by [atof] of
    argument [i + 1], for every argument given; the other weights keep their
    defaults. *)
Theorem main_weights_override (atof : list Ascii.ascii → R)
    (argv : list (list Ascii.ascii)) :
  length argv ≤ 8 →
  ∃ w, main_weights atof argv = Ok w ∧ length w = 7
    ∧ ∀ i, i < 7 →
        w !! i = Some (if decide (S i < length argv)
                       then atof (nth (S i) argv [])
                       else nth i default_weights 0%R).
Proof.
  intros Hargc. unfold main_weights. cbv zeta.
  destruct (Nat.ltb_spec 1 (length argv)) as [Hgt | Hle].
  - destruct (for_loop_invariant
      (λ t (w : list R), length w = 7
         ∧ ∀ i, i < 7 →
             w !! i = Some (if decide (S i < t)
                            then atof (nth (S i) argv [])
                            else nth i default_weights 0%R))
      (λ i weights,
         match argv !! i with
         | Some arg => vset weights (i - 1) (atof arg)
         | None => Abort index_out_of_range
         end) (length argv - 1) 1 default_weights) as (w & E & L & Hw).
    + split; [done |]. intros i Hi. rewrite decide_False by lia.
      by apply lookup_nth_in_range.
    + intros t s Ht [L Hs]. rewrite main_weights_step by lia.
      eexists. split; [reflexivity |]. split; [by rewrite length_insert |].
      intros i Hi. destruct (decide (i = t - 1)) as [-> | Hne].
      * rewrite list_lookup_insert_eq by lia. rewrite decide_True by lia.
        by replace (S (t - 1)) with t by lia.
      * rewrite list_lookup_insert_ne by done. rewrite Hs by done.
        destruct (decide (S i < t)), (decide (S i < S t)); try done; lia.
    + exists w. split; [done |]. split; [done |].
      by replace (1 + (length argv - 1)) with (length argv) in Hw by lia.
  - exists default_weights. split; [done |]. split; [done |].
    intros i Hi. rewrite decide_False by lia.
    by apply lookup_nth_in_range.
Qed.

Lemma main_weights_override_witness :
  let atof := λ s : list Ascii.ascii, INR (length s) in
  let argv := [str "mpc"; str "1"; str "22"] in
  length argv ≤ 8
  ∧ ∃ w, main_weights atof argv = Ok w
         ∧ w !! 1 = Some (INR 2) ∧ w !! 2 = Some 5%R.
Proof.
  intros atof argv. split; [simpl; lia |].
  destruct (main_weights_override atof argv) as (w & E & _ & Hw);
    [simpl; lia |].
  exists w. split; [exact E |].
  split; [exact (Hw 1 ltac:(lia)) | exact (Hw 2 ltac:(lia))].
Defined.

(** X9. With more than seven arguments after the program name, the
    override loop of [main] stores the seven first and then stores outside
    the seven weights. *)
Theorem main_weights_overflow (atof : list Ascii.ascii → R)
    (argv : list (list Ascii.ascii)) :
  8 < length argv →
  main_weights atof argv = Abort index_out_of_range.
Proof.
  intros Hargc. unfold main_weights. cbv zeta.
  rewrite (proj2 (Nat.ltb_lt 1 (length argv))) by lia.
  apply (for_loop_aborts (λ t (w : list R), length w = 7) _ _ 8).
  - lia.
  - done.
  - intros t s Ht L. rewrite main_weights_step by lia.
    eexists. split; [reflexivity |]. by rewrite length_insert.
  - intros s L. destruct (argv !! 8) as [arg|] eqn:E.
    + unfold vset. rewrite decide_False by (simpl; lia). done.
    + done.
Qed.

Lemma main_weights_overflow_witness :
  let argv := replicate 9 (str "1") in
  8 < length argv
  ∧ main_weights (λ _, 1%R) argv = Abort index_out_of_range.
Proof.
  intros argv. split; [simpl; lia |].
  apply (main_weights_overflow (λ _, 1%R) argv). simpl. lia.
Defined.

(** ** The horizon problem: every entry, the sign of the cost, the model *)

(** Every constraint entry belongs to one channel and one step. *)
Lemma constraint_index_channel (j : nat) :
  1 ≤ j ≤ n_constraints →
  ∃ k t, t < N ∧ j = 1 + channel_start k + t.
Proof.
  intros Hj. pose proof N_bounds as HN. unfold n_constraints in Hj.
  pose proof (Nat.div_mod_eq (j - 1) N) as Hdm.
  pose proof (Nat.mod_upper_bound (j - 1) N ltac:(lia)) as Hr.
  assert (Hq : (j - 1) / N < 6) by (apply Nat.Div0.div_lt_upper_bound; lia).
  destruct (channel_of_pos _ Hq) as [k Hk].
  exists k, ((j - 1) mod N). split; [done |].
  rewrite channel_start_pos, Hk. lia.
Qed.

(** X10. [operator()] writes every entry of [fg]: the cost and the [6N]
    constraints it returns do not depend on what [fg] held before the call. *)
Theorem FG_eval_call_overwrites (o : FG_eval) (vars fg1 fg2 : Dvector) :
  4 ≤ length (coeffs o) → 7 ≤ length (weights o) → length vars = n_vars →
  length fg1 = S n_constraints → length fg2 = S n_constraints →
  is_Ok (FG_eval_call o fg1 vars)
  ∧ FG_eval_call o fg1 vars = FG_eval_call o fg2 vars.
Proof.
  intros Hc Hw Hv H1 H2.
  destruct (FG_eval_call_spec o vars Hc Hw Hv fg1 H1)
    as (r1 & E1 & L1 & C1 & I1 & R1).
  destruct (FG_eval_call_spec o vars Hc Hw Hv fg2 H2)
    as (r2 & E2 & L2 & C2 & I2 & R2).
  rewrite E1, E2. split; [by eexists |]. f_equal.
  apply list_eq. intros j.
  destruct (decide (j = 0)) as [-> | Hj0]; [by rewrite C1, C2 |].
  destruct (decide (j ≤ n_constraints)) as [Hle | Hgt].
  - destruct (constraint_index_channel j) as (k & t & Ht & ->); [lia |].
    destruct (decide (t = 0)) as [-> | Hne].
    + rewrite Nat.add_0_r. by rewrite I1, I2.
    + rewrite R1, R2 by lia. done.
  - rewrite !(proj2 (lookup_ge_None _ _)) by lia. done.
Qed.

Lemma FG_eval_call_overwrites_witness :
  let o := {| coeffs := [1; 2; 3; 4]%R; weights := default_weights |} in
  FG_eval_call o (replicate 49 0%R) (replicate 62 1%R)
  = FG_eval_call o (replicate 49 7%R) (replicate 62 1%R).
Proof.
  intros o.
  apply (FG_eval_call_overwrites o (replicate 62 1%R) (replicate 49 0%R)
           (replicate 49 7%R)); first [reflexivity | simpl; lia].
Defined.

Lemma Rsum_nonneg (f : nat → R) (n : nat) :
  (∀ t, t < n → (0 <= f t)%R) → (0 <= Rsum f n)%R.
Proof.
  induction n as [|n IH]; intros Hf; simpl; [lra |].
  pose proof (Hf n ltac:(lia)). pose proof (IH ltac:(intros; apply Hf; lia)).
  lra.
Qed.

Lemma Rsum_zero (f : nat → R) (n : nat) :
  (∀ t, t < n → f t = 0%R) → Rsum f n = 0%R.
Proof.
  induction n as [|n IH]; intros Hf; simpl; [done |].
  rewrite IH, Hf by (intros; try apply Hf; lia). lra.
Qed.

(** X11. With seven weights that are not negative the cost [fg[0]] is not
    negative; it is zero on a decision vector whose cte and epsi are zero,
    whose speed is [ref_v] and whose steering and throttle are zero at every
    step. *)
Theorem FG_eval_cost_nonneg (o : FG_eval) (fg vars : Dvector) :
  4 ≤ length (coeffs o) → length (weights o) = 7 →
  length vars = n_vars → length fg = S n_constraints →
  (∀ i, i < 7 → (0 <= nth i (weights o) 0)%R) →
  ∃ fg' c, FG_eval_call o fg vars = Ok fg' ∧ fg' !! 0 = Some c
    ∧ (0 <= c)%R
    ∧ ((∀ t, t < N → cte_at vars t = 0%R ∧ epsi_at vars t = 0%R
                     ∧ v_at vars t = ref_v) →
       (∀ t, t < N - 1 → delta_at vars t = 0%R ∧ a_at vars t = 0%R) →
       c = 0%R).
Proof.
  intros Hc Hw Hv Hfg Hpos. pose proof N_bounds as HN.
  destruct (FG_eval_call_spec o vars Hc ltac:(lia) Hv fg Hfg)
    as (fg' & E & _ & C & _).
  exists fg', (cost_accumulated (weights o) vars).
  split; [done |]. split; [done |]. unfold cost_accumulated. split.
  - assert (0 <= Rsum (state_term (weights o) vars) N)%R.
    { apply Rsum_nonneg. intros t Ht. unfold state_term, weight.
      pose proof (Hpos 0 ltac:(lia)). pose proof (Hpos 1 ltac:(lia)).
      pose proof (Hpos 2 ltac:(lia)).
      pose proof (pow2_ge_0 (cte_at vars t)).
      pose proof (pow2_ge_0 (epsi_at vars t)).
      pose proof (pow2_ge_0 (v_at vars t - ref_v)). nra. }
    assert (0 <= Rsum (actuation_term (weights o) vars) (N - 1))%R.
    { apply Rsum_nonneg. intros t Ht. unfold actuation_term, weight.
      pose proof (Hpos 3 ltac:(lia)). pose proof (Hpos 4 ltac:(lia)).
      pose proof (pow2_ge_0 (delta_at vars t)).
      pose proof (pow2_ge_0 (a_at vars t)). nra. }
    assert (0 <= Rsum (gap_term (weights o) vars) (N - 2))%R.
    { apply Rsum_nonneg. intros t Ht. unfold gap_term, weight.
      pose proof (Hpos 5 ltac:(lia)). pose proof (Hpos 6 ltac:(lia)).
      pose proof (pow2_ge_0 (delta_at vars (t + 1) - delta_at vars t)).
      pose proof (pow2_ge_0 (a_at vars (t + 1) - a_at vars t)). nra. }
    lra.
  - intros Hstate Hact.
    rewrite (Rsum_zero (state_term _ _)), (Rsum_zero (actuation_term _ _)),
      (Rsum_zero (gap_term _ _)); [lra | | |].
    + intros t Ht. unfold gap_term.
      destruct (Hact t ltac:(lia)) as [-> ->].
      destruct (Hact (t + 1) ltac:(lia)) as [-> ->]. ring.
    + intros t Ht. unfold actuation_term.
      destruct (Hact t ltac:(lia)) as [-> ->]. ring.
    + intros t Ht. unfold state_term.
      destruct (Hstate t Ht) as (-> & -> & ->). ring.
Qed.

Lemma FG_eval_cost_nonneg_witness :
  let o := {| coeffs := [1; 2; 3; 4]%R; weights := default_weights |} in
  ∃ fg' c, FG_eval_call o (replicate 49 0%R) (replicate 62 1%R) = Ok fg'
           ∧ fg' !! 0 = Some c ∧ (0 <= c)%R.
Proof.
  intros o.
  destruct (FG_eval_cost_nonneg o (replicate 49 0%R) (replicate 62 1%R))
    as (fg' & c & E & C & Hc & _).
  - simpl. lia.
  - reflexivity.
  - reflexivity.
  - reflexivity.
  - intros i Hi.
    destruct i as [|[|[|[|[|[|[|]]]]]]]; simpl; try lra. lia.
  - exists fg', c. split; [exact E |]. split; [exact C | exact Hc].
Defined.

(** X12. The x, y, psi and v constraints of step [t] are all zero exactly
    when the state of step [t] is what [globalKinematic] returns from the
    state of step [t-1] over the time [dt], with the throttle of step [t-1]
    and with the steering of step [t-1] negated: the two uses of the model
    differ in the sign of the steering. *)
Theorem FG_eval_constraints_globalKinematic (o : FG_eval) (fg vars : Dvector)
    (t : nat) :
  4 ≤ length (coeffs o) → 7 ≤ length (weights o) →
  length vars = n_vars → length fg = S n_constraints → 1 ≤ t < N →
  ∃ fg', FG_eval_call o fg vars = Ok fg'
    ∧ ((fg' !! (1 + x_start + t) = Some 0%R
        ∧ fg' !! (1 + y_start + t) = Some 0%R
        ∧ fg' !! (1 + psi_start + t) = Some 0%R
        ∧ fg' !! (1 + v_start + t) = Some 0%R)
       ↔ (x_at vars t, y_at vars t, psi_at vars t, v_at vars t)
         = globalKinematic (x_at vars (t - 1)) (y_at vars (t - 1))
             (psi_at vars (t - 1)) (v_at vars (t - 1))
             (- delta_at vars (t - 1)) (a_at vars (t - 1)) dt).
Proof.
  intros Hc Hw Hv Hfg Ht.
  destruct (FG_eval_call_spec o vars Hc Hw Hv fg Hfg)
    as (fg' & E & _ & _ & _ & Hrows).
  exists fg'. split; [done |].
  pose proof (Hrows Cx t Ht) as Hx. pose proof (Hrows Cy t Ht) as Hy.
  pose proof (Hrows Cpsi t Ht) as Hpsi. pose proof (Hrows Cv t Ht) as Hvv.
  cbn [channel_start] in *. unfold residual in *.
  rewrite !prev_index in * by lia.
  rewrite Hx, Hy, Hpsi, Hvv. unfold globalKinematic.
  unfold x_at, y_at, psi_at, v_at, delta_at, a_at.
  set (x1 := nth (x_start + t) vars 0%R).
  set (y1 := nth (y_start + t) vars 0%R).
  set (p1 := nth (psi_start + t) vars 0%R).
  set (v1 := nth (v_start + t) vars 0%R).
  set (x0 := nth (x_start + (t - 1)) vars 0%R).
  set (y0 := nth (y_start + (t - 1)) vars 0%R).
  set (p0 := nth (psi_start + (t - 1)) vars 0%R).
  set (v0 := nth (v_start + (t - 1)) vars 0%R).
  set (d0 := nth (delta_start + (t - 1)) vars 0%R).
  set (a0 := nth (a_start + (t - 1)) vars 0%R).
  set (c := cos p0). set (s := sin p0).
  split.
  - intros ([= Ex] & [= Ey] & [= Ep] & [= Ev]).
    repeat f_equal; unfold Rdiv in *; lra.
  - intros [= Ex Ey Ep Ev]. unfold Rdiv in *.
    repeat split; f_equal; lra.
Qed.

Lemma FG_eval_constraints_globalKinematic_witness :
  let o := {| coeffs := [1; 2; 3; 4]%R; weights := default_weights |} in
  ∃ fg', FG_eval_call o (replicate 49 0%R) (replicate 62 0%R) = Ok fg'
         ∧ 1 ≤ 1 < N.
Proof.
  intros o.
  destruct (FG_eval_constraints_globalKinematic o (replicate 49 0%R)
              (replicate 62 0%R) 1) as (fg' & E & _);
    [simpl; lia | simpl; lia | reflexivity | reflexivity | unfold N; lia |].
  exists fg'. split; [exact E | unfold N; lia].
Defined.

(** ** [MPC::Solve]: the problem and the values taken from its solution *)

Lemma channel_start_or_not (j : nat) :
  (∃ k, j = channel_start k) ∨ (∀ k, j ≠ channel_start k).
Proof.
  destruct (decide (j = x_start)); [left; by exists Cx |].
  destruct (decide (j = y_start)); [left; by exists Cy |].
  destruct (decide (j = psi_start)); [left; by exists Cpsi |].
  destruct (decide (j = v_start)); [left; by exists Cv |].
  destruct (decide (j = cte_start)); [left; by exists Ccte |].
  destruct (decide (j = epsi_start)); [left; by exists Cepsi |].
  right. by intros [].
Qed.

(** X13. The initial guess lies within the variable bounds: every variable
    has a lower bound below its upper bound, and the initial value is between
    them, when no entry of the state exceeds [1.0e19] in absolute value. *)
Theorem Solve_initial_guess_within_bounds `{Platform} (mpc : MPC)
    (state coeffs : Dvector) :
  length state = 6 →
  (∀ i, i < 6 → (-1.0e19 <= nth i state 0 <= 1.0e19)%R) →
  ∃ p, Solve_problem mpc state coeffs = Ok p
    ∧ ∀ j, j < n_vars →
        ∃ lo x up, ipopt.xl p !! j = Some lo ∧ ipopt.xi p !! j = Some x
                   ∧ ipopt.xu p !! j = Some up
                   ∧ (lo <= x <= up)%R ∧ (lo < up)%R.
Proof.
  intros Hs Hbig. pose proof N_bounds as HN.
  destruct (Solve_problem_spec mpc state coeffs) as (p & E & B); [lia |].
  destruct B. exists p. split; [done |]. intros j Hj.
  destruct (channel_start_or_not j) as [[k ->] | Hnot].
  - destruct (built_bounds_state0 (channel_start k)) as [-> ->].
    { destruct k; cbn [channel_start]; layout; lia. }
    rewrite built_xi_state0. eexists _, _, _.
    split; [done |]. split; [done |]. split; [done |].
    pose proof (Hbig (channel_pos k) (channel_pos_bound k)). lra.
  - rewrite (built_xi_zero0 j Hj Hnot).
    destruct (decide (j < delta_start)) as [H1 | H1].
    + destruct (built_bounds_state0 j H1) as [-> ->]. eexists _, _, _.
      split; [done |]. split; [done |]. split; [done |]. lra.
    + destruct (decide (j < a_start)) as [H2 | H2].
      * destruct (built_bounds_delta0 j) as [-> ->]; [lia |].
        eexists _, _, _. split; [done |]. split; [done |].
        split; [done |]. lra.
      * destruct (built_bounds_a0 j) as [-> ->]; [lia |].
        eexists _, _, _. split; [done |]. split; [done |].
        split; [done |]. lra.
Qed.

Lemma Solve_initial_guess_within_bounds_witness :
  let state := [0; 0; 0; 10; 1; 0]%R in
  length state = 6
  ∧ ∃ p, @Solve_problem (still_platform ipopt.success)
           (mk_MPC default_weights) state [0; 0; 0; 0]%R = Ok p.
Proof.
  intros state. split; [reflexivity |].
  destruct (@Solve_initial_guess_within_bounds
              (still_platform ipopt.success) (mk_MPC default_weights)
              state [0; 0; 0; 0]%R eq_refl) as (p & E & _).
  - intros i Hi.
    destruct i as [|[|[|[|[|[|]]]]]]; simpl; try lra. lia.
  - exists p. exact E.
Defined.

(** X14. Every constraint is an equality: the two constraint-bound vectors
    are the same vector.  The initial guess satisfies the six constraints of
    the initial state: [operator()] on it returns, in the entry of each
    channel's first step, the bound of that entry. *)
Theorem Solve_initial_guess_meets_initial_state `{Platform} (mpc : MPC)
    (state coeffs fg : Dvector) :
  length state = 6 → 4 ≤ length coeffs → 7 ≤ length (mpc_weights mpc) →
  length fg = S n_constraints →
  ∃ p fg', Solve_problem mpc state coeffs = Ok p
    ∧ ipopt.gl p = ipopt.gu p
    ∧ FG_eval_call (ipopt.fg_eval p) fg (ipopt.xi p) = Ok fg'
    ∧ ∀ k, fg' !! (1 + channel_start k) = ipopt.gl p !! channel_start k.
Proof.
  intros Hs Hc Hw Hfg. pose proof N_bounds as HN.
  destruct (Solve_problem_spec mpc state coeffs) as (p & E & B); [lia |].
  destruct B.
  destruct (FG_eval_call_spec (ipopt.fg_eval p) (ipopt.xi p))
    with (fg := fg) as (fg' & E' & _ & _ & Hinit & _);
    [by rewrite built_fg_eval0 .. | done | done |].
  exists p, fg'. split; [done |]. split; [| split; [done |]].
  - apply list_eq. intros j.
    destruct (decide (j < n_constraints)) as [Hj | Hj].
    + destruct (channel_start_or_not j) as [[k ->] | Hnot].
      * by destruct (built_g_state0 k) as [-> ->].
      * by destruct (built_g_zero0 j Hj Hnot) as [-> ->].
    + rewrite !(proj2 (lookup_ge_None _ _)) by lia. done.
  - intros k. rewrite Hinit. destruct (built_g_state0 k) as [-> _].
    rewrite <- (built_xi_state0 k). symmetry.
    apply lookup_nth_in_range. rewrite built_xi_length0.
    destruct k; cbn [channel_start]; layout; lia.
Qed.

Lemma Solve_initial_guess_meets_initial_state_witness :
  let state := [0; 0; 0; 10; 1; 0]%R in
  ∃ p, @Solve_problem (still_platform ipopt.success)
         (mk_MPC default_weights) state [0; 0; 0; 0]%R = Ok p
       ∧ ipopt.gl p = ipopt.gu p.
Proof.
  intros state.
  destruct (@Solve_initial_guess_meets_initial_state
              (still_platform ipopt.success) (mk_MPC default_weights)
              state [0; 0; 0; 0]%R (replicate 49 0%R))
    as (p & fg' & E & G & _);
    [reflexivity | simpl; lia | simpl; lia | reflexivity |].
  exists p. split; [exact E | exact G].
Defined.

(** X15. When the solver answers with a vector of [n_vars] entries,
    [MPC::Solve] returns its entries [delta_start] and [a_start] as steering
    and throttle, and as predicted path the x and y of steps [1] to [N-1]:
    [N-1] points, step [0] left out. *)
Theorem Solve_extracts `{Platform} (mpc : MPC) (state coeffs : Dvector) :
  6 ≤ length state →
  (∀ p, Solve_problem mpc state coeffs = Ok p →
        length (ipopt.x (ipopt_solve p)) = n_vars) →
  ∃ p r, Solve_problem mpc state coeffs = Ok p
    ∧ Solve mpc state coeffs = Ok r
    ∧ ipopt.x (ipopt_solve p) !! delta_start = Some (d r)
    ∧ ipopt.x (ipopt_solve p) !! a_start = Some (a r)
    ∧ length (x_vals r) = N - 1 ∧ length (y_vals r) = N - 1
    ∧ ∀ i, i < N - 1 →
        x_vals r !! i = ipopt.x (ipopt_solve p) !! (x_start + (1 + i))
        ∧ y_vals r !! i = ipopt.x (ipopt_solve p) !! (y_start + (1 + i)).
Proof.
  intros Hs Hx. pose proof N_bounds as HN.
  destruct (Solve_problem_spec mpc state coeffs Hs) as (p & E & _).
  specialize (Hx p E).
  exists p. unfold Solve. rewrite E. cbn [mbind outcome_bind]. cbv zeta.
  rewrite Solve_actuations_spec by done.
  eexists. split; [done |]. split; [reflexivity |]. cbn [d a x_vals y_vals].
  rewrite !length_map, !length_seq.
  split; [apply lookup_nth_in_range; rewrite Hx; layout; lia |].
  split; [apply lookup_nth_in_range; rewrite Hx; layout; lia |].
  split; [done |]. split; [done |]. intros i Hi.
  rewrite !list_lookup_fmap, !lookup_seq_lt by done.
  cbn [fmap option_fmap option_map].
  split; symmetry; apply lookup_nth_in_range; rewrite Hx; layout; lia.
Qed.

Lemma Solve_extracts_witness :
  ∃ r, @Solve (fixed_platform 2) (mk_MPC default_weights)
         [0; 0; 0; 10; 1; 0]%R [0; 0; 0; 0]%R = Ok r
       ∧ d r = 2%R ∧ length (x_vals r) = N - 1.
Proof.
  destruct (@Solve_extracts (fixed_platform 2) (mk_MPC default_weights)
              [0; 0; 0; 10; 1; 0]%R [0; 0; 0; 0]%R)
    as (p & r & E & Er & Hd & _ & L & _).
  - simpl. lia.
  - intros p _. reflexivity.
  - exists r. split; [exact Er |]. split; [| exact L].
    injection Hd as Hd. symmetry. exact Hd.
Defined.

(** ** Angles, the kinematic model and the frame transform *)

(** X16. [deg2rad] and [rad2deg] are inverse to each other, and [deg2rad]
    of 180 is [pi]. *)
Theorem deg2rad_rad2deg (x : R) :
  rad2deg (deg2rad x) = x ∧ deg2rad (rad2deg x) = x ∧ deg2rad 180 = PI.
Proof.
  unfold rad2deg, deg2rad. pose proof PI_neq0.
  repeat split; field; done.
Qed.

Lemma Lf_pos : (0 < Lf)%R.
Proof. unfold Lf. lra. Qed.

(** X17. [globalKinematic] over a time [dt] moves the position by the
    distance [v * dt] (squared: [(v * dt)^2]), whatever the steering, changes
    the speed by [a * dt], and over the time zero changes nothing. *)
Theorem globalKinematic_displacement (x y p v d a dt : R) :
  let '(x', y', p', v') := globalKinematic x y p v d a dt in
  ((x' - x) ^ 2 + (y' - y) ^ 2 = (v * dt) ^ 2)%R
  ∧ (v' - v = a * dt)%R
  ∧ globalKinematic x y p v d a 0 = (x, y, p, v).
Proof.
  unfold globalKinematic. cbv zeta.
  pose proof (sin2_cos2 p) as Hsc. unfold Rsqr in Hsc.
  split; [| split].
  - replace ((x + v * cos p * dt - x) ^ 2 + (y + v * sin p * dt - y) ^ 2)%R
      with ((v * dt) ^ 2 * (sin p * sin p + cos p * cos p))%R by ring.
    rewrite Hsc. ring.
  - ring.
  - f_equal; [f_equal; [f_equal |] |]; ring.
Qed.

(** X18. In [globalKinematic] a positive steering angle turns the heading
    down, when the vehicle moves forward for a positive time; a negative one
    turns it up, and zero steering keeps it. *)
Theorem globalKinematic_steering_sign (x y p v d a dt : R) :
  (0 < v)%R → (0 < dt)%R →
  let p' := (globalKinematic x y p v d a dt).1.2 in
  ((0 < d)%R → (p' < p)%R) ∧ ((d < 0)%R → (p < p')%R)
  ∧ (d = 0%R → p' = p).
Proof.
  intros Hv Hdt. unfold globalKinematic. cbn [fst snd].
  pose proof Lf_pos as HLf.
  assert (Hk : (0 < v / Lf * dt)%R).
  { apply Rmult_lt_0_compat; [| done]. by apply Rdiv_lt_0_compat. }
  replace (p + v / Lf * - d * dt)%R with (p - (v / Lf * dt) * d)%R by ring.
  split; [| split].
  - intros Hd. pose proof (Rmult_lt_0_compat _ _ Hk Hd). lra.
  - intros Hd. assert (0 < (v / Lf * dt) * - d)%R
      by (apply Rmult_lt_0_compat; lra). lra.
  - intros ->. ring.
Qed.

Lemma globalKinematic_steering_sign_witness :
  (0 < 10)%R ∧ (0 < 0.1)%R
  ∧ ((globalKinematic 0 0 0 10 1 0 0.1).1.2 < 0)%R.
Proof.
  split; [lra |]. split; [lra |].
  apply (globalKinematic_steering_sign 0 0 0 10 1 0 0.1); lra.
Defined.

(** X19. The transform to vehicle coordinates puts the vehicle at the
    origin and the point one unit ahead of it, along its heading, at
    [(1, 0)]; it keeps the distance between any two waypoints. *)
Theorem to_vehicle_frame (px py psi : R) :
  to_vehicle px py psi px py = (0, 0)%R
  ∧ to_vehicle px py psi (px + cos psi) (py + sin psi) = (1, 0)%R
  ∧ ∀ ax ay bx b_y,
      let a' := to_vehicle px py psi ax ay in
      let b' := to_vehicle px py psi bx b_y in
      ((a'.1 - b'.1) ^ 2 + (a'.2 - b'.2) ^ 2
       = (ax - bx) ^ 2 + (ay - b_y) ^ 2)%R.
Proof.
  unfold to_vehicle. cbn [fst snd]. rewrite cos_neg, sin_neg.
  pose proof (sin2_cos2 psi) as Hsc. unfold Rsqr in Hsc.
  set (c := cos psi) in *. set (s := sin psi) in *.
  split; [| split].
  - f_equal; ring.
  - f_equal.
    + replace ((px + c - px) * c - (py + s - py) * - s)%R
        with (s * s + c * c)%R by ring. done.
    + ring.
  - intros ax ay bx b_y.
    replace (((ax - px) * c - (ay - py) * - s
              - ((bx - px) * c - (b_y - py) * - s)) ^ 2
             + ((ax - px) * - s + (ay - py) * c
                - ((bx - px) * - s + (b_y - py) * c)) ^ 2)%R
      with (((ax - bx) ^ 2 + (ay - b_y) ^ 2) * (s * s + c * c))%R by ring.
    rewrite Hsc. ring.
Qed.

(** ** The control cycle *)

(** X20. A telemetry event with more [ptsy] than [ptsx] entries stops at the
    first assertion of [polyfit]: the transformed y vector keeps the size of
    [ptsy], so the two vectors given to [polyfit] differ in size. *)
Theorem telemetry_state_more_ptsy `{Platform} (j : telemetry) (latency : R) :
  length (tm_ptsx j) < length (tm_ptsy j) →
  telemetry_state j latency = Abort assert_sizes_equal.
Proof.
  intros Hlen. unfold telemetry_state, globalKinematic. cbv zeta.
  destruct (transform_waypoints_spec (tm_ptsx j) (tm_ptsy j)
              (tm_x j + tm_speed j * cos (tm_psi j) * latency)
              (tm_y j + tm_speed j * sin (tm_psi j) * latency)
              (tm_psi j + tm_speed j / Lf * - tm_steering_angle j * latency))
    as (pts & -> & L1 & L2 & _); [lia |].
  cbn [mbind outcome_bind]. unfold polyfit.
  rewrite (proj2 (Nat.eqb_neq _ _)) by lia. done.
Qed.

Lemma telemetry_state_more_ptsy_witness :
  let j := {| tm_ptsx := [1; 2; 3; 4]%R; tm_ptsy := [1; 2; 3; 4; 5]%R;
              tm_x := 0; tm_y := 0; tm_psi := 0; tm_speed := 1;
              tm_steering_angle := 0; tm_throttle := 0 |} in
  length (tm_ptsx j) < length (tm_ptsy j)
  ∧ @telemetry_state (still_platform ipopt.success) j 0.1
    = Abort assert_sizes_equal.
Proof.
  intros j. split; [simpl; lia |].
  apply (@telemetry_state_more_ptsy (still_platform ipopt.success) j).
  simpl. lia.
Defined.

Lemma telemetry_state_too_few_waypoints_witness :
  let j := {| tm_ptsx := [1; 2; 3]%R; tm_ptsy := [1; 2; 3]%R;
              tm_x := 0; tm_y := 0; tm_psi := 0; tm_speed := 1;
              tm_steering_angle := 0; tm_throttle := 0 |} in
  length (tm_ptsx j) < 4
  ∧ @telemetry_state (still_platform ipopt.success) j 0.1
    = Abort assert_order_in_range.
Proof.
  intros j. split; [simpl; lia |].
  apply (@telemetry_state_too_few_waypoints (still_platform ipopt.success) j);
    [reflexivity | simpl; lia].
Defined.

(** X22. When both assertions hold, [polyfit] returns what the least-squares
    solver answers for the right-hand side [yvals] and the Vandermonde matrix
    of [xvals]: one row per point, [order + 1] columns, entry [(j, i)] equal
    to [xvals[j]^i]. *)
Theorem polyfit_vandermonde `{Platform} (xvals yvals : Dvector) (order : Z) :
  length xvals = length yvals →
  (1 ≤ order ≤ Z.of_nat (length xvals) - 1)%Z →
  ∃ A, polyfit xvals yvals order = Ok (householderQr_solve A yvals)
    ∧ length A = length xvals
    ∧ ∀ j xj, xvals !! j = Some xj →
        ∃ row, A !! j = Some row ∧ length row = Z.to_nat (order + 1)
               ∧ ∀ i, i < length row → row !! i = Some (xj ^ i)%R.
Proof. apply polyfit_spec. Qed.

Lemma polyfit_vandermonde_witness :
  ∃ A, @polyfit (still_platform ipopt.success) [1; 2; 3; 4]%R
         [1; 4; 9; 16]%R 3
       = Ok (@householderQr_solve (still_platform ipopt.success) A
               [1; 4; 9; 16]%R)
       ∧ length A = 4.
Proof.
  destruct (@polyfit_vandermonde (still_platform ipopt.success)
              [1; 2; 3; 4]%R [1; 4; 9; 16]%R 3) as (A & E & L & _);
    [reflexivity | simpl; lia |].
  exists A. split; [exact E | exact L].
Defined.

(** The terms of [polyeval] for the tail of the coefficients, each times
    [x], are the terms for the whole list from index 1 on. *)
Lemma polyeval_fold_shift (c0 : R) (c : list R) (x acc : R) (lo n : nat) :
  fold_left (λ result i, result + nth i (c0 :: c) 0 * x ^ i)%R
            (seq (S lo) n) acc
  = fold_left (λ result i, result + x * (nth i c 0 * x ^ i))%R
              (seq lo n) acc.
Proof.
  revert lo acc. induction n as [|n IH]; intros lo acc; [done |].
  cbn [seq fold_left]. rewrite IH. f_equal. cbn [nth pow]. ring.
Qed.

Lemma polyeval_fold_scale (c : list R) (x a acc : R) (l : list nat) :
  fold_left (λ result i, result + x * (nth i c 0 * x ^ i))%R l
            (a + x * acc)%R
  = (a + x * fold_left (λ result i, result + nth i c 0 * x ^ i) l acc)%R.
Proof.
  revert acc. induction l as [|i l IH]; intros acc; [done |].
  cbn [fold_left]. rewrite <- IH. f_equal. ring.
Qed.

(** X23. [polyeval], which sums the terms [coeffs[i] * x^i], computes the
    value Horner's rule gives: [c0 + x * (c1 + x * (c2 + ...))]. *)
Theorem polyeval_horner (coeffs : Dvector) (x : R) :
  polyeval coeffs x = foldr (λ c acc, c + x * acc)%R 0%R coeffs.
Proof.
  induction coeffs as [|c0 c IH]; [done |].
  cbn [foldr]. rewrite <- IH. unfold polyeval.
  cbn [length seq fold_left]. rewrite polyeval_fold_shift.
  replace (0 + nth 0 (c0 :: c) 0 * x ^ 0)%R with (c0 + x * 0)%R
    by (cbn [nth pow]; ring).
  apply polyeval_fold_scale.
Qed.

(** What [MPC::Solve] returned, when it returned. *)
Lemma Solve_inv `{Platform} (mpc : MPC) (state coeffs : Dvector)
    (r : actuation_vars) :
  Solve mpc state coeffs = Ok r →
  ∃ p, Solve_problem mpc state coeffs = Ok p
    ∧ ipopt.x (ipopt_solve p) !! delta_start = Some (d r)
    ∧ ipopt.x (ipopt_solve p) !! a_start = Some (a r).
Proof.
  unfold Solve. cbv zeta.
  destruct (Solve_problem mpc state coeffs) as [p|] eqn:Ep; [| discriminate].
  cbn [mbind outcome_bind]. unfold Solve_actuations. cbv zeta.
  destruct (vget _ delta_start) as [dv|] eqn:Ed; [| discriminate].
  cbn [mbind outcome_bind].
  destruct (vget _ a_start) as [av|] eqn:Ea; [| discriminate].
  cbn [mbind outcome_bind].
  destruct (for_loop _ _ _ _) as [vals|]; [| discriminate].
  cbn [mbind outcome_bind]. intros [= <-]. cbn [d a].
  exists p. split; [done |]. split; by apply vget_Ok.
Qed.

(** What [onTelemetry] returned, when it returned. *)
Lemma onTelemetry_inv `{Platform} (mpc : MPC) (j : telemetry) (latency : R)
    (msg : steer_message) :
  onTelemetry mpc j latency = Ok msg →
  ∃ state coeffs r,
    telemetry_state j latency = Ok (state, coeffs)
    ∧ Solve mpc state coeffs = Ok r
    ∧ msg = {| msg_steering_angle := -1 * (d r / deg2rad 25);
               msg_throttle := a r;
               msg_mpc_x := x_vals r;
               msg_mpc_y := y_vals r;
               msg_next_x := map (λ i, INR i * 2.5)%R (seq 0 25);
               msg_next_y :=
                 map (λ i, polyeval coeffs (INR i * 2.5))%R (seq 0 25) |}.
Proof.
  unfold onTelemetry.
  destruct (telemetry_state j latency) as [[state coeffs]|] eqn:Et;
    [| discriminate].
  cbn [mbind outcome_bind fst snd]. cbv zeta.
  destruct (Solve mpc state coeffs) as [r|] eqn:Es; [| discriminate].
  cbn [mbind outcome_bind]. intros [= <-]. exists state, coeffs, r.
  split; [done |]. split; [done | reflexivity].
Qed.

(** X24. The reply of a control cycle carries the throttle [MPC::Solve]
    returned, its steering divided by [deg2rad(25)] and negated, its
    predicted path, and a reference line of 25 points: point [i] has
    [x = 2.5 * i] and [y] the fitted polynomial at that [x]; the first point
    is [(0, cte)], with the cte of the state vector. *)
Theorem onTelemetry_reply `{Platform} (mpc : MPC) (j : telemetry)
    (latency : R) (msg : steer_message) :
  onTelemetry mpc j latency = Ok msg →
  ∃ state coeffs r,
    telemetry_state j latency = Ok (state, coeffs)
    ∧ Solve mpc state coeffs = Ok r
    ∧ msg_throttle msg = a r
    ∧ msg_steering_angle msg = (- (d r / deg2rad 25))%R
    ∧ msg_mpc_x msg = x_vals r ∧ msg_mpc_y msg = y_vals r
    ∧ length (msg_next_x msg) = 25 ∧ length (msg_next_y msg) = 25
    ∧ (∀ i, i < 25 →
         msg_next_x msg !! i = Some (INR i * 2.5)%R
         ∧ msg_next_y msg !! i = Some (polyeval coeffs (INR i * 2.5))%R)
    ∧ msg_next_x msg !! 0 = Some 0%R
    ∧ msg_next_y msg !! 0 = state !! 4.
Proof.
  intros E. apply onTelemetry_inv in E as (state & coeffs & r & Et & Es & ->).
  exists state, coeffs, r. cbn [msg_throttle msg_steering_angle msg_mpc_x
    msg_mpc_y msg_next_x msg_next_y].
  split; [done |]. split; [done |]. split; [done |].
  split; [ring |]. split; [done |]. split; [done |].
  rewrite !length_map, !length_seq. split; [done |]. split; [done |].
  split; [| split].
  - intros i Hi. rewrite !list_lookup_fmap, !lookup_seq_lt by done. done.
  - cbn [seq map lookup list_lookup INR]. f_equal. ring.
  - apply telemetry_state_inv in Et as (c1 & _ & ->).
    cbn [seq map lookup list_lookup INR]. f_equal. f_equal. ring.
Qed.

Lemma onTelemetry_reply_witness :
  ∃ msg, @onTelemetry (still_platform ipopt.success)
           (mk_MPC default_weights) sample_telemetry 0.1 = Ok msg
         ∧ length (msg_next_x msg) = 25
         ∧ msg_next_x msg !! 0 = Some 0%R.
Proof.
  eexists. split; [reflexivity |].
  destruct (@onTelemetry_reply (still_platform ipopt.success)
              (mk_MPC default_weights) sample_telemetry 0.1%R _ eq_refl)
    as (state & coeffs & r & _ & _ & _ & _ & _ & _ & L & _ & _ & H0 & _).
  split; [exact L | exact H0].
Defined.

Lemma PI_lower_bound : (3.1415904 < PI)%R.
Proof.
  pose proof (PI_2_3_7_ineq 2) as [Hlo _].
  unfold sum_f_R0, tg_alt, PI_2_3_7_tg, Ratan_seq in Hlo.
  simpl in Hlo. lra.
Qed.

(** The steering bound given to the solver is below 25 degrees. *)
Lemma steering_bound_below_25_degrees : (0.436332 < deg2rad 25)%R.
Proof. unfold deg2rad. pose proof PI_lower_bound. lra. Qed.

(** The initial guess is within the variable bounds when the position and
    heading of the state are zero and its other entries are not beyond
    [1.0e19]. *)
Lemma initial_guess_within_bounds `{Platform} (mpc : MPC)
    (state coeffs : Dvector) (p : ipopt.problem) (i : nat) (lo x up : R) :
  length state = 6 →
  (∀ k, k < 6 → (-1.0e19 <= nth k state 0 <= 1.0e19)%R) →
  Solve_problem mpc state coeffs = Ok p →
  ipopt.xl p !! i = Some lo → ipopt.xu p !! i = Some up →
  ipopt.xi p !! i = Some x → (lo <= x <= up)%R.
Proof.
  intros Hs Hbig Ep Hlo Hup Hx. pose proof N_bounds as HN.
  destruct (Solve_problem_spec mpc state coeffs) as (p' & Ep' & B); [lia |].
  rewrite Ep in Ep'. injection Ep' as <-. destruct B.
  assert (Hi : i < n_vars).
  { apply lookup_lt_Some in Hx. lia. }
  destruct (channel_start_or_not i) as [[k ->] | Hnot].
  - destruct (built_bounds_state0 (channel_start k)) as [Hl Hu].
    { destruct k; cbn [channel_start]; layout; lia. }
    rewrite built_xi_state0 in Hx.
    pose proof (Hbig (channel_pos k) (channel_pos_bound k)).
    simplify_eq. lra.
  - rewrite (built_xi_zero0 i Hi Hnot) in Hx.
    destruct (decide (i < delta_start)) as [H1 | H1].
    + destruct (built_bounds_state0 i H1) as [Hl Hu]. simplify_eq. lra.
    + destruct (decide (i < a_start)) as [H2 | H2].
      * destruct (built_bounds_delta0 i) as [Hl Hu]; [lia |].
        simplify_eq. lra.
      * destruct (built_bounds_a0 i) as [Hl Hu]; [lia |].
        simplify_eq. lra.
Qed.

(** A fit [polyfit] returns is an answer of the least-squares solver. *)
Lemma polyfit_inv `{Platform} (xvals yvals : Dvector) (order : Z)
    (fit : Dvector) :
  polyfit xvals yvals order = Ok fit →
  ∃ A, fit = householderQr_solve A yvals.
Proof.
  unfold polyfit.
  destruct (assert _ assert_sizes_equal); [| discriminate].
  cbn [mbind outcome_bind].
  destruct (assert _ assert_order_in_range); [| discriminate].
  cbn [mbind outcome_bind]. cbv zeta.
  destruct (for_loop 0 _ _ _) as [A1|]; [| discriminate].
  cbn [mbind outcome_bind].
  destruct (for_loop 0 _ _ A1) as [A2|]; [| discriminate].
  cbn [mbind outcome_bind]. intros [= <-]. by exists A2.
Qed.

(** A solver that stops at its initial point keeps the variables of a
    control cycle within their bounds, when the least-squares solver answers
    with zero coefficients and the compensated speed is not beyond
    [1.0e19]. *)
Lemma still_platform_within_bounds (st : ipopt.status_type) (mpc : MPC)
    (j : telemetry) (latency : R) (state coeffs : Dvector)
    (p : ipopt.problem) (i : nat) (lo x up : R) :
  (-1.0e19 <= tm_speed j + tm_throttle j * latency <= 1.0e19)%R →
  @telemetry_state (still_platform st) j latency = Ok (state, coeffs) →
  @Solve_problem (still_platform st) mpc state coeffs = Ok p →
  ipopt.xl p !! i = Some lo → ipopt.xu p !! i = Some up →
  ipopt.x (@ipopt_solve (still_platform st) p) !! i = Some x →
  (lo <= x <= up)%R.
Proof.
  intros Hspeed Et Ep Hlo Hup Hx.
  assert (Hzero : ∃ n, coeffs = replicate n 0%R).
  { revert Et. unfold telemetry_state, globalKinematic. cbv zeta.
    destruct (transform_waypoints _ _ _ _ _) as [pts|]; [| discriminate].
    cbn [mbind outcome_bind].
    destruct (polyfit _ _ _) as [cf|] eqn:Ef; [| discriminate].
    cbn [mbind outcome_bind].
    destruct (vget cf 1); [| discriminate].
    cbn [mbind outcome_bind]. intros [= _ <-].
    apply polyfit_inv in Ef as [A ->]. by eexists. }
  destruct Hzero as [n ->].
  apply telemetry_state_inv in Et as (c1 & Hc1 & Hst).
  apply lookup_replicate in Hc1 as [-> Hn].
  eapply (@initial_guess_within_bounds (still_platform st)
            mpc state (replicate n 0%R)); try done; [by rewrite Hst |].
  intros k Hk. rewrite Hst, polyeval_at_zero by (rewrite length_replicate; lia).
  rewrite atan_0.
  destruct k as [|[|[|[|[|[|]]]]]]; cbn [nth]; try lra; try lia.
  destruct n; [lia |]. simpl. lra.
Qed.

(** X25. When the solver keeps every variable of the problem of the cycle
    within the bounds it was given, the steering and the throttle of the reply lie in [[-1, 1]]: the
    steering bound [0.436332] is below [deg2rad(25)], by which the steering
    is divided. *)
Theorem onTelemetry_reply_normalized `{Platform} (mpc : MPC) (j : telemetry)
    (latency : R) (msg : steer_message) :
  (∀ state coeffs p i lo x up,
     telemetry_state j latency = Ok (state, coeffs) →
     Solve_problem mpc state coeffs = Ok p →
     ipopt.xl p !! i = Some lo → ipopt.xu p !! i = Some up →
     ipopt.x (ipopt_solve p) !! i = Some x → (lo <= x <= up)%R) →
  onTelemetry mpc j latency = Ok msg →
  (-1 < msg_steering_angle msg < 1)%R
  ∧ (-1 <= msg_throttle msg <= 1)%R.
Proof.
  intros Hsolver E. pose proof N_bounds as HN.
  apply onTelemetry_inv in E as (state & coeffs & r & Et & Es & ->).
  cbn [msg_throttle msg_steering_angle].
  apply Solve_inv in Es as (p & Ep & Hd & Ha).
  pose proof (λ i lo x up, Hsolver state coeffs p i lo x up Et Ep) as Hp.
  apply telemetry_state_inv in Et as (c1 & _ & ->).
  destruct (Solve_problem_spec mpc
              [0; 0; 0; tm_speed j + tm_throttle j * latency;
               polyeval coeffs 0; - atan c1]%R coeffs) as (p' & Ep' & B);
    [simpl; lia |].
  rewrite Ep in Ep'. injection Ep' as <-. destruct B.
  destruct (built_bounds_delta0 delta_start) as [Hl Hu]; [layout; lia |].
  destruct (built_bounds_a0 a_start) as [Hl' Hu']; [layout; lia |].
  pose proof (Hp _ _ _ _ Hl Hu Hd) as Hdr.
  pose proof (Hp _ _ _ _ Hl' Hu' Ha) as Har.
  split; [| lra].
  pose proof steering_bound_below_25_degrees as H25.
  assert (Hpos : (0 < deg2rad 25)%R) by lra.
  assert (Hq : (-1 < d r / deg2rad 25 < 1)%R).
  { split.
    - apply (Rmult_lt_reg_r (deg2rad 25)); [done |].
      unfold Rdiv. rewrite Rmult_assoc, Rinv_l by lra. lra.
    - apply (Rmult_lt_reg_r (deg2rad 25)); [done |].
      unfold Rdiv. rewrite Rmult_assoc, Rinv_l by lra. lra. }
  lra.
Qed.

Lemma onTelemetry_reply_normalized_witness :
  ∃ msg, @onTelemetry (still_platform ipopt.success)
           (mk_MPC default_weights) sample_telemetry 0.1 = Ok msg
         ∧ (-1 < msg_steering_angle msg < 1)%R
         ∧ (-1 <= msg_throttle msg <= 1)%R.
Proof.
  eexists. split; [reflexivity |].
  apply (@onTelemetry_reply_normalized (still_platform ipopt.success)
           (mk_MPC default_weights) sample_telemetry 0.1%R);
    [| reflexivity].
  intros state coeffs p i lo x up Et Ep Hlo Hup Hx.
  apply (still_platform_within_bounds ipopt.success
           (mk_MPC default_weights) sample_telemetry 0.1%R state coeffs p
           i lo x up); [simpl; lra | exact Et | exact Ep | exact Hlo
                        | exact Hup | exact Hx].
Defined.

(** X26. A control cycle sends a reply whenever the telemetry holds as many
    [ptsy] as [ptsx], at least four of them, the least-squares solver
    returns at least two coefficients and the solver a vector of [n_vars]
    entries. *)
Theorem onTelemetry_returns `{Platform} (mpc : MPC) (j : telemetry)
    (latency : R) :
  length (tm_ptsx j) = length (tm_ptsy j) → 4 ≤ length (tm_ptsx j) →
  (∀ A b, 2 ≤ length (householderQr_solve A b)) →
  (∀ p, length (ipopt.x (ipopt_solve p)) = n_vars) →
  is_Ok (onTelemetry mpc j latency).
Proof.
  intros Hlen H4 Hqr Hx.
  destruct (telemetry_state_returns j latency Hlen H4 Hqr) as [[st cf] Et].
  pose proof Et as Einv.
  apply telemetry_state_inv in Einv as (c1 & _ & Hst).
  destruct (Solve_returns mpc st cf) as (p & r & _ & Es & _);
    [rewrite Hst; simpl; lia | done |].
  unfold onTelemetry. rewrite Et. cbn [mbind outcome_bind fst snd]. cbv zeta.
  rewrite Es. cbn [mbind outcome_bind]. by eexists.
Qed.

Lemma onTelemetry_returns_witness :
  length (tm_ptsx sample_telemetry) = length (tm_ptsy sample_telemetry)
  ∧ 4 ≤ length (tm_ptsx sample_telemetry)
  ∧ is_Ok (@onTelemetry (fixed_platform 0) (mk_MPC default_weights)
             sample_telemetry 0.1).
Proof.
  split; [reflexivity |]. split; [simpl; lia |].
  apply (@onTelemetry_returns (fixed_platform 0) (mk_MPC default_weights)
           sample_telemetry 0.1%R).
  - reflexivity.
  - simpl. lia.
  - intros A b. simpl. lia.
  - intros p. reflexivity.
Defined.
